(** * ifc4enlistment: path rewriting and content-hash repair of IFC files

    A shallow embedding of [src/file.cxx] (the integrity protocol of
    [ifc::InputIfc]) and of [src/ifc4enlistment/main.cxx] (argument
    parsing, the per-file driver [process_ifc] and [main]), followed by
    the properties established about them. *)

From Stdlib Require Import ZArith Lia Ascii String.
From Stdlib.Strings Require Import Byte.
From stdpp Require Import base list.

Local Open Scope Z_scope.

(** ** Outcomes of a C++ computation *)

(** A 256-bit hash, [struct SHA256Hash { std::array<uint32_t, 8> value; }]:
    the eight words of [value], in order. *)
Record SHA256Hash := {
  value0 : Z; value1 : Z; value2 : Z; value3 : Z;
  value4 : Z; value5 : Z; value6 : Z; value7 : Z
}.

Definition value (h : SHA256Hash) : list Z :=
  [value0 h; value1 h; value2 h; value3 h;
   value4 h; value5 h; value6 h; value7 h].

(** The exceptions that can reach the handler of [main]. *)
Inductive exn :=
| IfcArchMismatch
| IntegrityCheckFailed (expected actual : SHA256Hash)
| MalformedContainer
| UnresolvedReference
| CStringMessage (message : list ascii)   (* [throw "..."], a [const char*] *)
| RuntimeError (what : list ascii)        (* [std::runtime_error] *)
| OutOfRange.                             (* [std::out_of_range] *)

(** The kind of a failure, by name. *)
Definition kind (e : exn) : string :=
  match e with
  | IfcArchMismatch => "IfcArchMismatch"
  | IntegrityCheckFailed _ _ => "IntegrityCheckFailed"
  | MalformedContainer => "MalformedContainer"
  | UnresolvedReference => "UnresolvedReference"
  | CStringMessage _ => "const char*"
  | RuntimeError _ => "std::runtime_error"
  | OutOfRange => "std::out_of_range"
  end.

(** A computation returns, throws, or has no defined behaviour (an access
    outside the object it is given). *)
Inductive result (A : Type) :=
| Ok (a : A)
| Throw (e : exn)
| Undefined.
Arguments Ok {A} a.
Arguments Throw {A} e.
Arguments Undefined {A}.

Definition bind {A B} (m : result A) (k : A -> result B) : result B :=
  match m with
  | Ok a => k a
  | Throw e => Throw e
  | Undefined => Undefined
  end.

Notation "'do' x <- m ;; k" := (bind m (fun x => k))
  (at level 10, x name, m at level 99, k at level 200,
   format "'[v' 'do'  x  <-  m  ;;  '/' k ']'").

(** ** [std::string] *)

Module StdString.

(** String literals of the program, as character lists. *)
Definition lit (s : string) : list ascii := list_ascii_of_string s.

(** [size_t] is 64 bits wide; [npos] is its largest value. *)
Definition size_t_modulus : Z := 2 ^ 64.
Definition npos : Z := size_t_modulus - 1.

(** Subtraction in [size_t]. *)
Definition size_sub (a b : Z) : Z := (a - b) mod size_t_modulus.

Definition size (s : list ascii) : Z := Z.of_nat (length s).

(** A string holds fewer than [npos] characters. *)
Definition fits (s : list ascii) : Prop := size s < npos.

(** [s.starts_with(p)] *)
Fixpoint starts_with (s p : list ascii) {struct p} : bool :=
  match p, s with
  | [], _ => true
  | _ :: _, [] => false
  | c :: p', d :: s' => Ascii.eqb c d && starts_with s' p'
  end.

(** First position [>= i] at which [pat] occurs, [s] being the part of
    the string that starts at [i]. *)
Fixpoint find_from (s pat : list ascii) (i : nat) : option nat :=
  if starts_with s pat then Some i
  else match s with
       | [] => None
       | _ :: s' => find_from s' pat (S i)
       end.

(** [s.find(pat)]: the position of the first occurrence, or [npos]. *)
Definition find (s pat : list ascii) : Z :=
  match find_from s pat 0 with
  | Some i => Z.of_nat i
  | None => npos
  end.

(** [s.substr(pos, count)]: throws [std::out_of_range] when
    [pos > size()], and clamps [count] to the rest of the string. *)
Definition substr (s : list ascii) (pos count : Z) : result (list ascii) :=
  if size s <? pos then Throw OutOfRange
  else
    let rlen := Z.min count (size s - pos) in
    Ok (take (Z.to_nat rlen) (drop (Z.to_nat pos) s)).

(** [s[i] = c]; an index outside the string is not a defined access. *)
Definition store (s : list ascii) (i : Z) (c : ascii) : result (list ascii) :=
  if (0 <=? i) && (i <? size s) then Ok (<[Z.to_nat i := c]> s)
  else Undefined.

(** [s.replace(pos, count, r)]: throws [std::out_of_range] when
    [pos > size()]; the span replaced is [count] clamped to the rest of
    the string. *)
Definition replace (s : list ascii) (pos count : Z) (r : list ascii)
  : result (list ascii) :=
  if size s <? pos then Throw OutOfRange
  else
    let n := Z.min count (size s - pos) in
    Ok (take (Z.to_nat pos) s ++ r ++ drop (Z.to_nat (pos + n)) s).

End StdString.

(** ** The rewrite rule of [process_ifc] *)

Module Rewrite.
Import StdString.

Definition srcrootPrefix : list ascii := lit "SRC_PARENTsrc\".
Definition publicPath : list ascii := lit "\public\".
Definition icachePrefix : list ascii := lit "ICACHECUR\".
Definition icacheSuffix : list ascii := lit "\src".
Definition sourceFilePartitionName : list ascii := lit "name.source-file".

(** Lines 180-184: the project name cut out of the path, its first
    backslash turned into an underscore. *)
Definition project_name (sourceFileStr : list ascii) (idx : Z)
  : result (list ascii) :=
  do projectName <- substr sourceFileStr (size srcrootPrefix)
                        (size_sub idx (size srcrootPrefix)) ;;
  let pathSep := find projectName (lit "\") in
  if negb (pathSep =? npos) then store projectName pathSep "_"%char
  else Ok projectName.

(** Lines 185-187. *)
Definition make_replacement (projectName : list ascii) : list ascii :=
  icachePrefix ++ projectName ++ icacheSuffix.

(** Lines 175-189: [Some s] is the string handed to [ifcFile.set], [None]
    means that the record is left alone. *)
Definition rewritten_path (sourceFileStr : list ascii)
  : result (option (list ascii)) :=
  if starts_with sourceFileStr srcrootPrefix then
    let idx := find sourceFileStr publicPath in
    if negb (idx =? npos) then
      do projectName <- project_name sourceFileStr idx ;;
      let replacement := make_replacement projectName in
      do sourceFileStr' <- replace sourceFileStr 0 (size replacement) replacement ;;
      Ok (Some sourceFileStr')
    else Ok None
  else Ok None.

End Rewrite.

Import StdString Rewrite.

(** ** Bytes and object representations *)

(** [std::equal(first1, last1, first2, last2)]: same length, same elements. *)
Fixpoint std_equal {A} (eqb : A -> A -> bool) (a b : list A) : bool :=
  match a, b with
  | [], [] => true
  | x :: a', y :: b' => eqb x y && std_equal eqb a' b'
  | _, _ => false
  end.

#[global] Instance byte_eq_decision : EqDecision byte := Byte.byte_eq_dec.

Definition byte_of_Z (z : Z) : byte :=
  match Byte.of_N (Z.to_N (Z.land z 255)) with
  | Some b => b
  | None => x00
  end.

(** The four bytes of a [uint32_t] as they lie in memory (the targets of
    the program are little-endian). *)
Definition word_bytes (w : Z) : list byte :=
  [byte_of_Z w; byte_of_Z (Z.shiftr w 8);
   byte_of_Z (Z.shiftr w 16); byte_of_Z (Z.shiftr w 24)].

(** The bytes read through
    [reinterpret_cast<const uint8_t*>(result.value.data())]. *)
Definition object_bytes (h : SHA256Hash) : list byte :=
  concat (map word_bytes (value h)).

(** The bytes of the pointer range [[data + first, data + last)]. *)
Definition byte_range (data : list byte) (first last : nat) : list byte :=
  take (last - first) (drop first data).

(** [memcpy(dst + at, src, n)]; defined only when both ranges lie inside
    their objects. *)
Definition memcpy (dst : list byte) (at_ : nat) (src : list byte) (n : nat)
  : result (list byte) :=
  if ((at_ + n <=? length dst) && (n <=? length src))%nat
  then Ok (take at_ dst ++ take n src ++ drop (at_ + n) dst)
  else Undefined.

(** ** The container as [process_ifc] sees it *)

Definition TextOffset := Z.     (* [enum class TextOffset : uint32_t] *)
Definition ByteOffset := Z.
Definition Cardinality := Z.

(** One row of the partition table. *)
Record PartitionSummaryData := {
  name : TextOffset;
  offset : ByteOffset;
  cardinality : Cardinality
}.

(** What was done to the mapped file, in order; kept next to the bytes so
    that properties can speak about the calls made. *)
Inductive event :=
| SetString (ref : TextOffset) (s : list ascii)
| ResetContentHash.

Record Mapped := { contents : list byte; log : list event }.

Definition is_reset (ev : event) : bool :=
  match ev with
  | ResetContentHash => true
  | SetString _ _ => false
  end.

(** The number of calls of [reset_content_hash] in a log. *)
Definition resets (events : list event) : nat := length (filter is_reset events).

(** A step of the driver: it may change the mapped bytes and then return,
    throw or go wrong; the bytes written before a throw stay written. *)
Definition step (A : Type) := Mapped -> Mapped * result A.

Definition step_bind {A B} (m : step A) (k : A -> step B) : step B :=
  fun st =>
    match m st with
    | (st', Ok a) => k a st'
    | (st', Throw e) => (st', Throw e)
    | (st', Undefined) => (st', Undefined)
    end.

Definition pure {A} (r : result A) : step A := fun st => (st, r).

Notation "'run' x <- m ;; k" := (step_bind m (fun x => k))
  (at level 10, x name, m at level 99, k at level 200,
   format "'[v' 'run'  x  <-  m  ;;  '/' k ']'").

(** How the program ends. *)
Inductive parsed :=
| Exit (code : Z)
| Files (files : list (list ascii)).

Inductive termination :=
| Returned (code : Z)
| WentWrong.

Record Run (FS : Type) := {
  status : termination;
  stdout : list ascii;
  stderr : list ascii;
  disk : FS
}.
Arguments status {FS} r.
Arguments stdout {FS} r.
Arguments stderr {FS} r.
Arguments disk {FS} r.

Definition EXIT_SUCCESS : Z := 0.
Definition EXIT_FAILURE : Z := 1.
Definition nl : list ascii := ["010"%char].

Section Program.

(** *** What the program takes from outside its two source files *)

(** [ifc::hash_bytes(first, last)], the SHA-256 of a byte range. *)
Variable hash_bytes : list byte -> SHA256Hash.
(** [ifc::bytes_to_hash(first, last)] *)
Variable bytes_to_hash : list byte -> SHA256Hash.
(** The checks of [InputIfc::validate] on the signature and the header. *)
Variable validate_header : list byte -> result bool.
(** [InputIfc::partition_table()] *)
Variable partition_table : list byte -> list PartitionSummaryData.
(** [InputIfc::get(TextOffset)] *)
Variable get : list byte -> TextOffset -> result (list ascii).
(** [InputIfc::set(TextOffset, const std::string&)]: the bytes after the
    call and how the call ended. *)
Variable set : list byte -> TextOffset -> list ascii -> list byte * result unit.
(** [position(offset)] followed by [read_array<SourceFileName>(n)]: the
    number of records of the span returned. *)
Variable read_array : list byte -> ByteOffset -> Cardinality -> result nat.
(** The [name] field of record [i] of that span; the span is a view of
    the mapped bytes, so the field is read from the bytes as they are. *)
Variable source_file_name : list byte -> ByteOffset -> nat -> TextOffset.
(** [std::filesystem::path::stem()] *)
Variable stem : list ascii -> list ascii.
(** The file system and the Win32 calls of [memory_map_file]. *)
Variables FS HANDLE : Type.
Variable CreateFileA : FS -> list ascii -> option HANDLE.
Variable GetFileSize : FS -> HANDLE -> Z.
Variable CreateFileMappingA : FS -> HANDLE -> option HANDLE.
Variable MapViewOfFile : FS -> HANDLE -> option (list byte).
(** The file system once the bytes of a mapped span have been changed. *)
Variable written_through : FS -> list ascii -> list byte -> FS.

(** *** file.cxx *)

(** [sizeof(InterfaceSignature)] and [sizeof(SHA256Hash)]: the two types are
    declared in the headers of the library; file.cxx asserts that the sizes
    add up to 36, "4 bytes for Signature + 8*4 bytes for SHA2". *)
Definition sizeof_InterfaceSignature : nat := 4.
Definition sizeof_SHA256Hash : nat := 32.

Definition hash_start : nat := sizeof_InterfaceSignature.
Definition contents_start : nat := hash_start + sizeof_SHA256Hash.

(** [InputIfc::generate_content_hash]; the range handed to [hash_bytes]
    is a range only when the buffer reaches [contents_start]. *)
Definition generate_content_hash (file : list byte) : result SHA256Hash :=
  if (contents_start <=? length file)%nat
  then Ok (hash_bytes (byte_range file contents_start (length file)))
  else Undefined.

(** [InputIfc::validate_content_integrity] *)
Definition validate_content_integrity (file : list byte) : result unit :=
  do result <- generate_content_hash file ;;
  let actual := byte_range (object_bytes result) 0 (length (value result) * 4) in
  let expected := byte_range file hash_start (hash_start + sizeof_SHA256Hash) in
  if negb (std_equal Byte.eqb actual expected)
  then Throw (IntegrityCheckFailed (bytes_to_hash expected) result)
  else Ok tt.

(** [InputIfc::reset_content_hash], on the bytes. *)
Definition reset_content_hash (file : list byte) : result (list byte) :=
  do result <- generate_content_hash file ;;
  memcpy file hash_start (object_bytes result) sizeof_SHA256Hash.

(** The stored digest and the hashed body of a buffer. *)
Definition digest (file : list byte) : list byte :=
  byte_range file hash_start contents_start.
Definition body (file : list byte) : list byte := drop contents_start file.
Definition signature (file : list byte) : list byte := take hash_start file.

(** Modelled from the spec: [InputIfc::validate] is declared in
    ifc/file.hxx, which is not among the sources.  Called with
    [IfcOptions::IntegrityCheck] it checks the digest invariant, which is
    [validate_content_integrity] above, and it checks the signature and
    the architecture, which is [validate_header]; a failed check is
    thrown.  [process_ifc] drops the value returned. *)
Definition validate (file : list byte) : result bool :=
  do _u <- validate_content_integrity file ;;
  validate_header file.

(** *** main.cxx: process_ifc *)

Definition reading {A} (f : list byte -> result A) : step A :=
  fun st => (st, f (contents st)).

Definition set_step (ref : TextOffset) (s : list ascii) : step unit :=
  fun st =>
    let '(file, r) := set (contents st) ref s in
    ({| contents := file; log := log st ++ [SetString ref s] |}, r).

Definition reset_step : step unit :=
  fun st =>
    match reset_content_hash (contents st) with
    | Ok file => ({| contents := file; log := log st ++ [ResetContentHash] |}, Ok tt)
    | Throw e => (st, Throw e)
    | Undefined => (st, Undefined)
    end.

(** [std::find_if] over the partition table with the predicate
    [sourceFilePartitionName.compare(ifcFile.get(entry.name)) == 0]. *)
Fixpoint find_if (file : list byte) (table : list PartitionSummaryData)
  : result (option PartitionSummaryData) :=
  match table with
  | [] => Ok None
  | entry :: rest =>
      do s <- get file (name entry) ;;
      if std_equal Ascii.eqb sourceFilePartitionName s then Ok (Some entry)
      else find_if file rest
  end.

(** Lines 172-192: the rewrite of one record of [sourceFiles]. *)
Definition rewrite_record (at_ : ByteOffset) (i : nat) : step unit :=
  fun st =>
    let file_name := source_file_name (contents st) at_ i in
    (if negb (file_name =? 0) then
       run sourceFileStr <- reading (fun file => get file file_name) ;;
       run rewritten <- pure (rewritten_path sourceFileStr) ;;
       match rewritten with
       | Some sourceFileStr' => set_step file_name sourceFileStr'
       | None => pure (Ok tt)
       end
     else pure (Ok tt)) st.

(** The body of the loop over [sourceFiles], lines 171-194. *)
Definition visit (at_ : ByteOffset) (i : nat) : step unit :=
  run _u <- rewrite_record at_ i ;;
  reset_step.

Fixpoint visit_all (at_ : ByteOffset) (records : list nat) : step unit :=
  match records with
  | [] => pure (Ok tt)
  | i :: rest => run _u <- visit at_ i ;; visit_all at_ rest
  end.

(** [process_ifc] from line 154 on, on the mapped bytes. *)
Definition process_mapped : step unit :=
  run _b <- reading validate ;;
  fun st =>
    let partitionTable := partition_table (contents st) in
    (run sourceFilePartitionData <- reading (fun file => find_if file partitionTable) ;;
     match sourceFilePartitionData with
     | None => pure (Ok tt)
     | Some entry =>
         run n <- reading (fun file => read_array file (offset entry) (cardinality entry)) ;;
         visit_all (offset entry) (seq 0 n)
     end) st.

(** *** main.cxx: memory_map_file *)

Definition INVALID_FILE_SIZE : Z := 4294967295.   (* 0xFFFFFFFF *)

Definition memory_map_file (fs : FS) (file_path : list ascii) : result (list byte) :=
  match CreateFileA fs file_path with
  | None => Throw (RuntimeError (lit "Failed to open file"))
  | Some file_handle =>
      let file_size := GetFileSize fs file_handle in
      if file_size =? INVALID_FILE_SIZE
      then Throw (RuntimeError (lit "Failed to determine file size"))
      else
        match CreateFileMappingA fs file_handle with
        | None => Throw (RuntimeError (lit "Failed to create file mapping"))
        | Some file_mapping =>
            match MapViewOfFile fs file_mapping with
            | None => Throw (RuntimeError (lit "Failed to map view of file"))
            | Some mapped_data => Ok (take (Z.to_nat file_size) mapped_data)
            end
        end
  end.

Definition process_ifc (fs : FS) (file : list ascii) : FS * result unit :=
  match memory_map_file fs file with
  | Ok mapped =>
      let '(st, r) := process_mapped {| contents := mapped; log := [] |} in
      (written_through fs file (contents st), r)
  | Throw e => (fs, Throw e)
  | Undefined => (fs, Undefined)
  end.

(** *** main.cxx: the command line and main *)

Definition translate_exception (e : exn) : list ascii :=
  match e with
  | IfcArchMismatch => lit "ifc architecture mismatch" ++ nl
  | CStringMessage message => lit "caught: " ++ message
  | _ => lit "unknown exception caught" ++ nl
  end.

Definition print_help (path : list ascii) : list ascii :=
  let name := stem path in
  lit "Usage:" ++ nl ++ nl
  ++ name ++ lit " ifc-file1 [ifc-file2 ...] [--color/-c]" ++ nl
  ++ name ++ lit " --help/-h" ++ nl.

(** [argv[i][0]]: the first character of a C string, NUL when empty. *)
Definition first_char (arg : list ascii) : ascii :=
  match arg with
  | c :: _ => c
  | [] => zero
  end.

(** An argument that [process_args] takes for a file. *)
Definition file_argument (arg : list ascii) : Prop := first_char arg <> "-"%char.

(** The loop of [process_args] from [argv[i]] on, [files] being
    [result.files] so far, and the check that follows it.  Returns what
    was printed and either the exit code or the arguments. *)
Fixpoint process_args_from (argv0 : list ascii) (args files : list (list ascii))
  : list ascii * parsed :=
  match args with
  | arg :: rest =>
      if std_equal Ascii.eqb arg (lit "--help") || std_equal Ascii.eqb arg (lit "-h")
      then (print_help argv0, Exit 0)
      else if negb (Ascii.eqb (first_char arg) "-"%char)
      then process_args_from argv0 rest (files ++ [arg])
      else (lit "Unknown command line argument '" ++ arg ++ lit "'" ++ nl
            ++ print_help argv0, Exit 1)
  | [] =>
      if bool_decide (files = [])
      then (lit "Specify filepath of an ifc file" ++ nl ++ print_help argv0, Exit 1)
      else ([], Files files)
  end.

Definition process_args (argv0 : list ascii) (args : list (list ascii))
  : list ascii * parsed :=
  process_args_from argv0 args [].

(** The loop of [main] over [arguments.files]. *)
Fixpoint process_files (fs : FS) (files : list (list ascii)) : FS * result unit :=
  match files with
  | [] => (fs, Ok tt)
  | file :: rest =>
      match process_ifc fs file with
      | (fs', Ok _) => process_files fs' rest
      | failed => failed
      end
  end.

Definition main (fs : FS) (argv0 : list ascii) (args : list (list ascii)) : Run FS :=
  match process_args argv0 args with
  | (out, Exit code) =>
      {| status := Returned code; stdout := out; stderr := []; disk := fs |}
  | (out, Files files) =>
      match process_files fs files with
      | (fs', Ok _) =>
          {| status := Returned EXIT_SUCCESS; stdout := out; stderr := []; disk := fs' |}
      | (fs', Throw e) =>
          {| status := Returned EXIT_FAILURE; stdout := out;
             stderr := translate_exception e; disk := fs' |}
      | (fs', Undefined) =>
          {| status := WentWrong; stdout := out; stderr := []; disk := fs' |}
      end
  end.

End Program.

(** A diagnostic identifies the kind of the failure it reports when no
    failure of another kind is reported with the same text. *)
Definition identifies_kind (e : exn) : Prop :=
  forall e', translate_exception e' = translate_exception e -> kind e' = kind e.

(** ** A small instance to run the program on

    A stand-in for the ifc library and for the file system: a one-row
    partition table at byte 36, one string slot from byte 40 to the end of
    the file, and a checksum in place of SHA-256. *)

Module Sample.

Definition byte_value (b : byte) : Z := Z.of_N (Byte.to_N b).

Definition hash_bytes (bytes : list byte) : SHA256Hash :=
  let s := fold_left (fun acc b => (acc * 31 + byte_value b) mod 2 ^ 32) bytes 7 in
  {| value0 := s; value1 := Z.lxor s 1; value2 := Z.lxor s 2; value3 := Z.lxor s 3;
     value4 := Z.lxor s 4; value5 := Z.lxor s 5; value6 := Z.lxor s 6;
     value7 := Z.lxor s 7 |}.

Definition word_of (bytes : list byte) : Z :=
  fold_right (fun b acc => byte_value b + 256 * acc) 0 (take 4 bytes).

Definition bytes_to_hash (bytes : list byte) : SHA256Hash :=
  {| value0 := word_of bytes; value1 := word_of (drop 4 bytes);
     value2 := word_of (drop 8 bytes); value3 := word_of (drop 12 bytes);
     value4 := word_of (drop 16 bytes); value5 := word_of (drop 20 bytes);
     value6 := word_of (drop 24 bytes); value7 := word_of (drop 28 bytes) |}.

Definition validate_header (file : list byte) : result bool := Ok true.

Definition partition_table (file : list byte) : list PartitionSummaryData :=
  match file !! 36%nat with
  | Some b => [ {| name := byte_value b; offset := 40; cardinality := 1 |} ]
  | None => []
  end.

Definition get (file : list byte) (ref : TextOffset) : result (list ascii) :=
  if ref =? 1 then Ok (lit "name.source-file")
  else if ref =? 2 then Ok (map ascii_of_byte (drop 40 file))
  else if ref =? 3 then Ok (lit "name.other")
  else Throw UnresolvedReference.

Definition set (file : list byte) (ref : TextOffset) (s : list ascii)
  : list byte * result unit :=
  if ref =? 2
  then (take 40 file
        ++ take (length file - 40) (map byte_of_ascii s ++ drop (40 + length s) file),
        Ok tt)
  else (file, Throw UnresolvedReference).

Definition read_array (file : list byte) (at_ : ByteOffset) (n : Cardinality)
  : result nat :=
  if at_ <=? Z.of_nat (length file) then Ok (Z.to_nat n)
  else Throw MalformedContainer.

Definition source_file_name (file : list byte) (at_ : ByteOffset) (i : nat)
  : TextOffset := 2.

Definition stem (path : list ascii) : list ascii := path.

Definition FS : Type := list (list ascii * list byte).
Definition HANDLE : Type := list byte.

Fixpoint lookup_file (fs : FS) (path : list ascii) : option (list byte) :=
  match fs with
  | [] => None
  | (p, bytes) :: rest =>
      if std_equal Ascii.eqb p path then Some bytes else lookup_file rest path
  end.

Definition CreateFileA (fs : FS) (path : list ascii) : option HANDLE :=
  lookup_file fs path.
Definition GetFileSize (fs : FS) (h : HANDLE) : Z := Z.of_nat (length h).
Definition CreateFileMappingA (fs : FS) (h : HANDLE) : option HANDLE :=
  match h with
  | [] => None
  | _ => Some h
  end.
Definition MapViewOfFile (fs : FS) (h : HANDLE) : option (list byte) := Some h.
Definition written_through (fs : FS) (path : list ascii) (bytes : list byte) : FS :=
  (path, bytes) :: fs.

(** The program over this instance. *)
Definition validate_content_integrity :=
  validate_content_integrity hash_bytes bytes_to_hash.
Definition reset_content_hash := reset_content_hash hash_bytes.
Definition validate := validate hash_bytes bytes_to_hash validate_header.
Definition find_if := find_if get.
Definition process_mapped :=
  process_mapped hash_bytes bytes_to_hash validate_header partition_table
                 get set read_array source_file_name.
Definition process_ifc :=
  process_ifc hash_bytes bytes_to_hash validate_header partition_table get set
              read_array source_file_name FS HANDLE CreateFileA GetFileSize
              CreateFileMappingA MapViewOfFile written_through.
Definition process_files :=
  process_files hash_bytes bytes_to_hash validate_header partition_table get set
                read_array source_file_name FS HANDLE CreateFileA GetFileSize
                CreateFileMappingA MapViewOfFile written_through.
Definition main :=
  main hash_bytes bytes_to_hash validate_header partition_table get set
       read_array source_file_name stem FS HANDLE CreateFileA GetFileSize
       CreateFileMappingA MapViewOfFile written_through.

(** Files. *)
Definition bytes_of (s : string) : list byte := map byte_of_ascii (lit s).

Definition signature_bytes : list byte := [x54; x51; x45; x1a].

Definition sealed (body : list byte) : list byte :=
  signature_bytes ++ object_bytes (hash_bytes body) ++ body.

Definition source_body : list byte :=
  [x01; x00; x00; x00] ++ bytes_of "SRC_PARENTsrc\foo\public\bar\baz.h".
Definition rewritten_body : list byte :=
  [x01; x00; x00; x00] ++ bytes_of "ICACHECUR\foo\src\public\bar\baz.h".
Definition other_body : list byte :=
  [x03; x00; x00; x00] ++ bytes_of "SRC_PARENTsrc\foo\public\bar\baz.h".

Definition source_ifc : list byte := sealed source_body.
Definition other_ifc : list byte := sealed other_body.
(** A file whose stored digest is not the hash of its body. *)
Definition damaged_ifc : list byte :=
  signature_bytes ++ repeat x00 32 ++ source_body.

Definition disk0 : FS :=
  [ (lit "a.ifc", source_ifc); (lit "b.ifc", other_ifc); (lit "bad.ifc", damaged_ifc) ].

End Sample.

(** ** load_file *)

Section Loader.

Variable FS : Type.
(** [std::filesystem::file_size(path)]; it throws when the size cannot be
    determined. *)
Variable file_size : FS -> list ascii -> result Z.
(** The characters that an [std::ifstream] opened on the file in binary
    mode delivers; [None] when the file cannot be opened. *)
Variable ifstream : FS -> list ascii -> option (list byte).

(** [file.read(dst, n)]: the characters extracted, at most [n], are stored
    at the start of [dst]; a stream that is not open extracts none. *)
Definition ifstream_read (stream : option (list byte)) (dst : list byte) (n : nat)
  : list byte :=
  match stream with
  | Some chars => take n chars ++ drop (length (take n chars)) dst
  | None => dst
  end.

(** [load_file], lines 83-92; [v.resize(size)] fills the vector with zero
    bytes. *)
Definition load_file (fs : FS) (path : list ascii) : result (list byte) :=
  do size <- file_size fs path ;;
  let v := replicate (Z.to_nat size) x00 in
  Ok (ifstream_read (ifstream fs path) v (length v)).

End Loader.

(** A step accounts for its changes when what it adds to the log is empty
    only if it left the mapped bytes and the log as they were. *)
Definition accounted {A} (m : step A) : Prop :=
  forall st st' r, m st = (st', r) ->
    exists events, log st' = log st ++ events /\ (events = [] -> st' = st).

(** The sample file system seen through [file_size] and [std::ifstream]. *)
Module SampleLoader.

Definition file_size (fs : Sample.FS) (path : list ascii) : result Z :=
  match Sample.lookup_file fs path with
  | Some bytes => Ok (Z.of_nat (length bytes))
  | None => Throw (RuntimeError (lit "file_size"))
  end.

Definition ifstream (fs : Sample.FS) (path : list ascii) : option (list byte) :=
  Sample.lookup_file fs path.

Definition load_file := load_file Sample.FS file_size ifstream.

End SampleLoader.

(** * Properties *)

Example sample_run_rewrites :
  Sample.process_mapped {| contents := Sample.source_ifc; log := [] |}
  = ({| contents := Sample.sealed Sample.rewritten_body;
        log := [SetString 2 (lit "ICACHECUR\foo\src\public\bar\baz.h");
                ResetContentHash] |}, Ok tt).
Proof. vm_compute. reflexivity. Qed.

Example sample_run_other :
  Sample.process_mapped {| contents := Sample.other_ifc; log := [] |}
  = ({| contents := Sample.other_ifc; log := [] |}, Ok tt).
Proof. vm_compute. reflexivity. Qed.

Example sample_run_damaged :
  exists h1 h2,
  Sample.process_mapped {| contents := Sample.damaged_ifc; log := [] |}
  = ({| contents := Sample.damaged_ifc; log := [] |},
     Throw (IntegrityCheckFailed h1 h2)).
Proof. eexists _, _. vm_compute. reflexivity. Qed.

Example sample_main_damaged :
  let r := Sample.main Sample.disk0 (lit "ifc4enlistment") [lit "a.ifc"; lit "bad.ifc"] in
  status r = Returned 1 /\ stderr r = lit "unknown exception caught" ++ nl.
Proof. vm_compute. split; reflexivity. Qed.

(** ** Facts about the string operations *)

Lemma std_equal_ascii (a b : list ascii) : std_equal Ascii.eqb a b = true <-> a = b.
Proof.
  revert b. induction a as [|x a IH]; intros [|y b]; simpl; try (split; congruence).
  rewrite andb_true_iff, Ascii.eqb_eq, IH. split.
  - intros [-> ->]. reflexivity.
  - intros [= -> ->]. split; reflexivity.
Qed.

Lemma std_equal_byte (a b : list byte) : std_equal Byte.eqb a b = true <-> a = b.
Proof.
  revert b. induction a as [|x a IH]; intros [|y b]; simpl; try (split; congruence).
  rewrite andb_true_iff, IH. split.
  - intros [H ->]. apply Byte.byte_dec_bl in H. congruence.
  - intros [= -> ->]. split; [apply Byte.byte_dec_lb|]; reflexivity.
Qed.

Lemma starts_with_app (s p : list ascii) :
  starts_with s p = true <-> s = p ++ drop (length p) s.
Proof.
  revert s. induction p as [|c p IH]; intros s; simpl.
  - rewrite drop_0. split; reflexivity.
  - destruct s as [|d s]; simpl; [split; congruence|].
    rewrite andb_true_iff, Ascii.eqb_eq, IH. split.
    + intros [-> H]. congruence.
    + intros [= -> H]. split; [reflexivity | exact H].
Qed.

Lemma starts_with_length (s p : list ascii) :
  starts_with s p = true -> (length p <= length s)%nat.
Proof.
  intros H. apply starts_with_app in H. rewrite H, length_app. lia.
Qed.

Lemma find_from_range (s pat : list ascii) (k i : nat) :
  find_from s pat k = Some i -> (k <= i /\ i + length pat <= k + length s)%nat.
Proof.
  revert k. induction s as [|c s IH]; intros k; simpl.
  - destruct (starts_with [] pat) eqn:E; [|discriminate].
    intros [= <-]. apply starts_with_length in E. simpl in E. lia.
  - destruct (starts_with (c :: s) pat) eqn:E.
    + intros [= <-]. apply starts_with_length in E. simpl in E. lia.
    + intros H. apply IH in H. lia.
Qed.

Lemma find_from_complete (a b pat : list ascii) (k : nat) :
  exists i, find_from (a ++ pat ++ b) pat k = Some i /\ (i <= k + length a)%nat.
Proof.
  revert k. induction a as [|c a IH]; intros k.
  - exists k. split; [|lia]. simpl app.
    assert (E : starts_with (pat ++ b) pat = true).
    { apply starts_with_app. rewrite drop_app_length. reflexivity. }
    destruct (pat ++ b); simpl in *; rewrite E; reflexivity.
  - simpl. destruct (starts_with _ pat).
    + exists k. split; [reflexivity | lia].
    + destruct (IH (S k)) as [i [Hi Hle]]. exists i. split; [exact Hi | lia].
Qed.

Lemma find_from_mismatch (c p0 : ascii) (s pat : list ascii) (k : nat) :
  Ascii.eqb p0 c = false ->
  find_from (c :: s) (p0 :: pat) k = find_from s (p0 :: pat) (S k).
Proof. intros H. simpl. rewrite H. reflexivity. Qed.

Lemma find_after_srcroot (rest : list ascii) :
  find_from (srcrootPrefix ++ rest) publicPath 0
  = if starts_with (lit "\" ++ rest) publicPath then Some 13%nat
    else find_from rest publicPath 14.
Proof.
  unfold srcrootPrefix, publicPath, lit. cbn [list_ascii_of_string app].
  do 13 (rewrite find_from_mismatch by reflexivity).
  reflexivity.
Qed.

Lemma store_found (p : list ascii) (i : nat) (c : ascii) :
  find_from p (lit "\") 0 = Some i ->
  store p (Z.of_nat i) c = Ok (<[i := c]> p).
Proof.
  intros H. apply find_from_range in H. simpl in H.
  unfold store, size.
  replace ((0 <=? Z.of_nat i) && (Z.of_nat i <? Z.of_nat (length p))) with true.
  - rewrite Nat2Z.id. reflexivity.
  - symmetry. apply andb_true_iff. split; [apply Z.leb_le | apply Z.ltb_lt]; lia.
Qed.

(** The project name is always produced once the path is at least as long
    as the root prefix, and it is as long as the clamped count. *)
Lemma project_name_ok (s : list ascii) (idx : Z) :
  size srcrootPrefix <= size s ->
  exists p,
    project_name s idx = Ok p
    /\ length p = Z.to_nat (Z.min (size_sub idx (size srcrootPrefix))
                                  (size s - size srcrootPrefix)).
Proof.
  intros Hlen. unfold project_name, substr.
  destruct (Z.ltb_spec (size s) (size srcrootPrefix)) as [Hlt | _]; [lia|].
  cbn [bind].
  set (count := Z.min _ _).
  set (p0 := take (Z.to_nat count) (drop (Z.to_nat (size srcrootPrefix)) s)).
  assert (Hp0 : length p0 = Z.to_nat count).
  { subst p0. rewrite length_take, length_drop.
    assert (0 <= size_sub idx (size srcrootPrefix)).
    { unfold size_sub, size_t_modulus. apply Z.mod_pos_bound. lia. }
    unfold size in *. subst count. lia. }
  unfold find. destruct (find_from p0 (lit "\") 0) as [i|] eqn:Hfind.
  - destruct (Z.of_nat i =? npos); cbn [negb].
    + exists p0. split; [reflexivity | exact Hp0].
    + rewrite (store_found _ _ _ Hfind). eexists. split; [reflexivity|].
      rewrite length_insert. exact Hp0.
  - rewrite Z.eqb_refl. exists p0. split; [reflexivity | exact Hp0].
Qed.

Lemma replace_leading (s r : list ascii) :
  (length r <= length s)%nat ->
  replace s 0 (size r) r = Ok (r ++ drop (length r) s).
Proof.
  intros H. unfold replace, size.
  destruct (Z.ltb_spec (Z.of_nat (length s)) 0) as [Hlt | _]; [lia|].
  rewrite Z.min_l by lia. simpl Z.to_nat. rewrite take_0.
  rewrite Z.add_0_l, Nat2Z.id. reflexivity.
Qed.

Lemma length_make_replacement (p : list ascii) :
  length (make_replacement p) = (length p + 14)%nat.
Proof.
  unfold make_replacement. rewrite !length_app. simpl. lia.
Qed.

(** What [process_ifc] hands to [set] for a path that passes both tests. *)
Lemma rewritten_path_accepted (s : list ascii) :
  starts_with s srcrootPrefix = true ->
  find s publicPath <> npos ->
  exists p,
    project_name s (find s publicPath) = Ok p
    /\ (length (make_replacement p) <= length s)%nat
    /\ rewritten_path s
       = Ok (Some (make_replacement p ++ drop (length (make_replacement p)) s)).
Proof.
  intros Hpre Hfound.
  assert (Hlen : size srcrootPrefix <= size s).
  { apply starts_with_length in Hpre. unfold size. lia. }
  destruct (project_name_ok s (find s publicPath) Hlen) as [p [Hp Hplen]].
  assert (Hr : (length (make_replacement p) <= length s)%nat).
  { rewrite length_make_replacement, Hplen.
    change (size srcrootPrefix) with 14 in *. unfold size in *. lia. }
  exists p. split; [exact Hp|]. split; [exact Hr|].
  unfold rewritten_path. rewrite Hpre.
  destruct (Z.eqb_spec (find s publicPath) npos) as [E | _]; [contradiction|].
  cbn [negb]. rewrite Hp. cbn [bind].
  rewrite (replace_leading _ _ Hr). reflexivity.
Qed.

Lemma find_containing (s a b pat : list ascii) :
  fits s -> s = a ++ pat ++ b -> find s pat <> npos.
Proof.
  intros Hfits ->. unfold find.
  destruct (find_from_complete a b pat 0) as [i [-> Hi]].
  unfold fits, size in Hfits. rewrite length_app in Hfits. lia.
Qed.

(** ** The rewrite rule *)

(** C2: a path that starts with the root prefix [SRC_PARENTsrc\] and
    contains the marker [\public\] is rewritten to a string of the same
    length: the replacement [ICACHECUR\ ++ project ++ \src] is no longer
    than the path and takes the place of exactly as many leading
    characters as it has, the rest of the path following it unchanged. *)
Theorem C2_rewrite_keeps_length (s a b : list ascii) :
  fits s ->
  starts_with s srcrootPrefix = true ->
  s = a ++ publicPath ++ b ->
  exists project s',
    let replacement := icachePrefix ++ project ++ icacheSuffix in
    project_name s (find s publicPath) = Ok project
    /\ rewritten_path s = Ok (Some s')
    /\ s' = replacement ++ drop (length replacement) s
    /\ take (length replacement) s' = replacement
    /\ drop (length replacement) s' = drop (length replacement) s
    /\ length s' = length s.
Proof.
  intros Hfits Hpre Hin.
  destruct (rewritten_path_accepted s Hpre (find_containing s a b _ Hfits Hin))
    as [p [Hp [Hr Hs']]].
  exists p, (make_replacement p ++ drop (length (make_replacement p)) s).
  cbn zeta. fold (make_replacement p).
  repeat split.
  - exact Hp.
  - exact Hs'.
  - apply take_app_length.
  - apply drop_app_length.
  - rewrite length_app, length_drop. lia.
Qed.

Lemma C2_rewrite_keeps_length_witness :
  let s := lit "SRC_PARENTsrc\a\b\public\x.h" in
  fits s
  /\ starts_with s srcrootPrefix = true
  /\ s = lit "SRC_PARENTsrc\a\b" ++ publicPath ++ lit "x.h"
  /\ exists project s',
    let replacement := icachePrefix ++ project ++ icacheSuffix in
    project_name s (find s publicPath) = Ok project
    /\ rewritten_path s = Ok (Some s')
    /\ s' = replacement ++ drop (length replacement) s
    /\ take (length replacement) s' = replacement
    /\ drop (length replacement) s' = drop (length replacement) s
    /\ length s' = length s.
Proof.
  intros s.
  assert (Hfits : fits s) by (unfold fits; vm_compute; reflexivity).
  assert (Hpre : starts_with s srcrootPrefix = true) by (vm_compute; reflexivity).
  assert (Hin : s = lit "SRC_PARENTsrc\a\b" ++ publicPath ++ lit "x.h")
    by (vm_compute; reflexivity).
  split; [exact Hfits|]. split; [exact Hpre|]. split; [exact Hin|].
  exact (C2_rewrite_keeps_length s (lit "SRC_PARENTsrc\a\b") (lit "x.h")
           Hfits Hpre Hin).
Defined.

(** C6: the path [SRC_PARENTsrc\foo\public\bar\baz.h] has its marker at
    index 17; the project segment is [foo], the replacement is
    [ICACHECUR\foo\src], which is 17 characters long and is written over
    the first 17 characters; the remainder [\public\bar\baz.h] is
    unchanged and the result is [ICACHECUR\foo\src\public\bar\baz.h]. *)
Theorem C6_rewrite_foo :
  let s := lit "SRC_PARENTsrc\foo\public\bar\baz.h" in
  let replacement := lit "ICACHECUR\foo\src" in
  let s' := lit "ICACHECUR\foo\src\public\bar\baz.h" in
  find s publicPath = 17
  /\ project_name s (find s publicPath) = Ok (lit "foo")
  /\ make_replacement (lit "foo") = replacement
  /\ size replacement = 17
  /\ replace s 0 (size replacement) replacement = Ok s'
  /\ rewritten_path s = Ok (Some s')
  /\ take 17 s' = replacement
  /\ drop 17 s' = lit "\public\bar\baz.h"
  /\ drop 17 s = lit "\public\bar\baz.h".
Proof. cbv zeta. repeat split; vm_compute; reflexivity. Qed.

Lemma find_marker_at_13 (s : list ascii) :
  starts_with s srcrootPrefix = true ->
  starts_with (drop 13 s) publicPath = true ->
  find s publicPath = 13.
Proof.
  intros Hpre Hmark. apply starts_with_app in Hpre.
  set (rest := drop (length srcrootPrefix) s) in Hpre.
  unfold find. rewrite Hpre, find_after_srcroot.
  rewrite Hpre in Hmark.
  change (drop 13 (srcrootPrefix ++ rest)) with (lit "\" ++ rest) in Hmark.
  rewrite Hmark. reflexivity.
Qed.

(** C8: when the path starts with [SRC_PARENTsrc\] and [\public\] begins
    at index 13, on the backslash that ends the prefix, the count
    [idx - srcrootPrefix.size()] computed in [size_t] wraps around to the
    largest value; [substr] still returns, with the count clamped to the
    rest of the string, no exception is thrown and no character outside
    a string is touched, and the string written has the length of the
    path. *)
Theorem C8_marker_on_prefix_backslash (s : list ascii) :
  fits s ->
  starts_with s srcrootPrefix = true ->
  starts_with (drop 13 s) publicPath = true ->
  find s publicPath = 13
  /\ find s publicPath - size srcrootPrefix < 0
  /\ size_sub (find s publicPath) (size srcrootPrefix) = 2 ^ 64 - 1
  /\ substr s (size srcrootPrefix)
            (size_sub (find s publicPath) (size srcrootPrefix))
     = Ok (drop 14 s)
  /\ exists s', rewritten_path s = Ok (Some s') /\ length s' = length s.
Proof.
  intros Hfits Hpre Hmark.
  pose proof (find_marker_at_13 s Hpre Hmark) as Hidx.
  pose proof (starts_with_length _ _ Hpre) as Hlen.
  change (length srcrootPrefix) with 14%nat in Hlen.
  rewrite Hidx. change (size srcrootPrefix) with 14.
  change (size_sub 13 14) with (2 ^ 64 - 1).
  split; [reflexivity|]. split; [lia|]. split; [reflexivity|]. split.
  - unfold substr. unfold fits, npos, size_t_modulus, size in *.
    destruct (Z.ltb_spec (Z.of_nat (length s)) 14) as [Hlt | _]; [lia|].
    rewrite Z.min_r by lia.
    rewrite take_ge; [reflexivity|]. rewrite length_drop. lia.
  - destruct (rewritten_path_accepted s Hpre) as [p [_ [Hr Hs']]].
    + rewrite Hidx. discriminate.
    + eexists. split; [exact Hs'|].
      rewrite length_app, length_drop. lia.
Qed.

Lemma C8_marker_on_prefix_backslash_witness :
  let s := lit "SRC_PARENTsrc\public\x.h" in
  fits s
  /\ starts_with s srcrootPrefix = true
  /\ starts_with (drop 13 s) publicPath = true
  /\ find s publicPath = 13
  /\ find s publicPath - size srcrootPrefix < 0
  /\ size_sub (find s publicPath) (size srcrootPrefix) = 2 ^ 64 - 1
  /\ substr s (size srcrootPrefix)
            (size_sub (find s publicPath) (size srcrootPrefix))
     = Ok (drop 14 s)
  /\ exists s', rewritten_path s = Ok (Some s') /\ length s' = length s.
Proof.
  intros s.
  assert (Hfits : fits s) by (unfold fits; vm_compute; reflexivity).
  assert (Hpre : starts_with s srcrootPrefix = true) by (vm_compute; reflexivity).
  assert (Hmark : starts_with (drop 13 s) publicPath = true)
    by (vm_compute; reflexivity).
  split; [exact Hfits|]. split; [exact Hpre|]. split; [exact Hmark|].
  exact (C8_marker_on_prefix_backslash s Hfits Hpre Hmark).
Defined.

(** ** The rewrite rule, case by case *)

Lemma find_from_sound (s pat : list ascii) (k i : nat) :
  find_from s pat k = Some i -> starts_with (drop (i - k) s) pat = true.
Proof.
  revert k. induction s as [|c s IH]; intros k; simpl find_from.
  - destruct (starts_with [] pat) eqn:E; [|discriminate].
    intros [= <-]. rewrite Nat.sub_diag. exact E.
  - destruct (starts_with (c :: s) pat) eqn:E.
    + intros [= <-]. rewrite Nat.sub_diag. exact E.
    + intros H. pose proof (find_from_range _ _ _ _ H) as [Hle _].
      apply IH in H. replace (i - k)%nat with (S (i - S k)) by lia. exact H.
Qed.

Lemma find_from_occurrence (s pat : list ascii) (i : nat) :
  find_from s pat 0 = Some i ->
  s = take i s ++ pat ++ drop (i + length pat) s.
Proof.
  intros H. apply find_from_sound in H. rewrite Nat.sub_0_r in H.
  apply starts_with_app in H. rewrite drop_drop in H.
  rewrite <- H. symmetry. apply take_drop.
Qed.

Lemma find_from_char_absent (c : ascii) (s : list ascii) (k : nat) :
  c ∉ s -> find_from s [c] k = None.
Proof.
  revert k. induction s as [|x s IH]; intros k Hc; [reflexivity|].
  apply not_elem_of_cons in Hc as [Hx Hs]. simpl.
  destruct (Ascii.eqb_spec c x) as [E | _]; [contradiction|].
  simpl. apply IH. exact Hs.
Qed.

Lemma find_from_char_first (c : ascii) (a b : list ascii) (k : nat) :
  c ∉ a -> find_from (a ++ c :: b) [c] k = Some (k + length a)%nat.
Proof.
  revert k. induction a as [|x a IH]; intros k Hc; simpl.
  - rewrite Ascii.eqb_refl. simpl. f_equal. lia.
  - apply not_elem_of_cons in Hc as [Hx Ha].
    destruct (Ascii.eqb_spec c x) as [E | _]; [contradiction|].
    simpl. rewrite (IH (S k) Ha). f_equal. lia.
Qed.

(** Lines 182-184 on a project name without a backslash, and on one whose
    first backslash is known. *)
Lemma separator_absent (seg : list ascii) :
  "\"%char ∉ seg ->
  (let pathSep := find seg (lit "\") in
   if negb (pathSep =? npos) then store seg pathSep "_"%char else Ok seg)
  = Ok seg.
Proof.
  intros H. cbv zeta. unfold find.
  change (lit "\") with ["\"%char]. rewrite (find_from_char_absent _ _ _ H).
  rewrite Z.eqb_refl. reflexivity.
Qed.

Lemma separator_first (a b : list ascii) :
  size (a ++ "\"%char :: b) < npos ->
  "\"%char ∉ a ->
  (let pathSep := find (a ++ "\"%char :: b) (lit "\") in
   if negb (pathSep =? npos) then store (a ++ "\"%char :: b) pathSep "_"%char
   else Ok (a ++ "\"%char :: b))
  = Ok (a ++ "_"%char :: b).
Proof.
  intros Hfits H. cbv zeta. unfold find.
  pose proof (find_from_char_first "\"%char a b 0 H) as Hfind.
  change (lit "\") with ["\"%char]. rewrite Hfind. simpl Nat.add.
  destruct (Z.eqb_spec (Z.of_nat (length a)) npos) as [E | _].
  - unfold size in Hfits. rewrite length_app in Hfits. lia.
  - cbn [negb]. rewrite (store_found _ _ _ Hfind).
    rewrite insert_app_r_alt by lia. rewrite Nat.sub_diag. reflexivity.
Qed.

Lemma substr_length_le (s seg : list ascii) (pos count : Z) :
  substr s pos count = Ok seg -> (length seg <= length s)%nat.
Proof.
  unfold substr. destruct (size s <? pos); [discriminate|].
  intros [= <-]. rewrite length_take, length_drop. lia.
Qed.

(** Every path is answered: either it is left alone, or it is rewritten. *)
Lemma rewritten_path_cases (s : list ascii) :
  (rewritten_path s = Ok None
   /\ (starts_with s srcrootPrefix = false \/ find s publicPath = npos))
  \/ (exists p,
        starts_with s srcrootPrefix = true
        /\ find s publicPath <> npos
        /\ project_name s (find s publicPath) = Ok p
        /\ (length (make_replacement p) <= length s)%nat
        /\ rewritten_path s
           = Ok (Some (make_replacement p ++ drop (length (make_replacement p)) s))).
Proof.
  destruct (starts_with s srcrootPrefix) eqn:Hpre.
  - destruct (Z.eq_dec (find s publicPath) npos) as [E | E].
    + left. split; [|right; exact E].
      unfold rewritten_path. rewrite Hpre, E, Z.eqb_refl. reflexivity.
    + right. destruct (rewritten_path_accepted s Hpre E) as [p [Hp [Hr Hs']]].
      exists p. repeat split; assumption.
  - left. split; [|left; reflexivity].
    unfold rewritten_path. rewrite Hpre. reflexivity.
Qed.

Lemma starts_with_icache_not_srcroot (s : list ascii) :
  starts_with s icachePrefix = true -> starts_with s srcrootPrefix = false.
Proof.
  destruct s as [|c s]; [discriminate|].
  unfold icachePrefix, srcrootPrefix, lit. cbn [list_ascii_of_string starts_with].
  intros H. apply andb_true_iff in H as [H _]. apply Ascii.eqb_eq in H. subst c.
  reflexivity.
Qed.

Lemma rewritten_starts_with_icache (p rest : list ascii) :
  starts_with (make_replacement p ++ rest) icachePrefix = true.
Proof.
  apply starts_with_app. unfold make_replacement.
  rewrite <- !app_assoc. rewrite drop_app_length. reflexivity.
Qed.

(** The rewrite of lines 175-189 never throws and never touches a
    character outside a string, whatever the path: a path without the root
    prefix or without the marker is left alone, every other path is
    replaced by a string of the same length that starts with
    [ICACHECUR\]. *)
Theorem rewritten_path_never_fails (s : list ascii) :
  (rewritten_path s = Ok None
   /\ (starts_with s srcrootPrefix = false \/ find s publicPath = npos))
  \/ (exists s',
        rewritten_path s = Ok (Some s')
        /\ starts_with s srcrootPrefix = true
        /\ find s publicPath <> npos
        /\ length s' = length s
        /\ starts_with s' icachePrefix = true).
Proof.
  destruct (rewritten_path_cases s) as [H | [p [Hpre [Hidx [_ [Hr Hs']]]]]];
    [left; exact H | right].
  eexists. split; [exact Hs'|]. split; [exact Hpre|]. split; [exact Hidx|].
  split; [rewrite length_app, length_drop; lia|].
  apply rewritten_starts_with_icache.
Qed.

(** A path that does not start with [SRC_PARENTsrc\], or in which
    [\public\] occurs nowhere, is not handed to [set]. *)
Theorem rewritten_path_passthrough (s : list ascii) :
  starts_with s srcrootPrefix = false \/ (forall a b, s <> a ++ publicPath ++ b) ->
  rewritten_path s = Ok None.
Proof.
  intros H.
  destruct (rewritten_path_cases s) as [[H0 _] | [p [Hpre [Hidx _]]]]; [exact H0|].
  exfalso. destruct H as [H | H]; [congruence|].
  unfold find in Hidx.
  destruct (find_from s publicPath 0) as [i|] eqn:Hfind; [|congruence].
  apply (H _ _ (find_from_occurrence _ _ _ Hfind)).
Qed.

(** A rewritten path is not rewritten again: it starts with [ICACHECUR\],
    not with the root prefix. *)
Theorem rewritten_path_idempotent (s s' : list ascii) :
  rewritten_path s = Ok (Some s') -> rewritten_path s' = Ok None.
Proof.
  intros H.
  destruct (rewritten_path_cases s) as [[H0 _] | [p [_ [_ [_ [_ Hs']]]]]];
    [congruence|].
  assert (E : s' = make_replacement p ++ drop (length (make_replacement p)) s)
    by congruence.
  pose proof (rewritten_starts_with_icache p (drop (length (make_replacement p)) s))
    as Hic.
  rewrite <- E in Hic. apply starts_with_icache_not_srcroot in Hic.
  unfold rewritten_path. rewrite Hic. reflexivity.
Qed.

(** Of the project name only the first backslash becomes an underscore:
    a name without backslash is kept, and [a\b] with no backslash in [a]
    becomes [a_b], the backslashes of [b] staying. *)
Theorem project_name_first_separator (s seg : list ascii) (idx : Z) :
  fits s ->
  substr s (size srcrootPrefix) (size_sub idx (size srcrootPrefix)) = Ok seg ->
  ("\"%char ∉ seg -> project_name s idx = Ok seg)
  /\ (forall a b, seg = a ++ "\"%char :: b -> "\"%char ∉ a ->
                  project_name s idx = Ok (a ++ "_"%char :: b)).
Proof.
  intros Hfits Hsub. unfold project_name. rewrite Hsub. cbn [bind].
  split.
  - apply separator_absent.
  - intros a b -> Ha. apply separator_first; [|exact Ha].
    apply substr_length_le in Hsub. unfold fits, size in *. lia.
Qed.

(** When the marker first occurs at index [i >= 14], the project name has
    [i - 14] characters and the rewritten path is [ICACHECUR\], the
    project name, [\src] and then the path from the marker on, unchanged. *)
Theorem rewritten_path_keeps_tail (s : list ascii) (i : nat) :
  fits s ->
  starts_with s srcrootPrefix = true ->
  find_from s publicPath 0 = Some i ->
  (14 <= i)%nat ->
  exists project,
    project_name s (Z.of_nat i) = Ok project
    /\ length project = (i - 14)%nat
    /\ rewritten_path s
       = Ok (Some (icachePrefix ++ project ++ icacheSuffix ++ drop i s))
    /\ starts_with (drop i s) publicPath = true.
Proof.
  intros Hfits Hpre Hfind Hi.
  pose proof (find_from_range _ _ _ _ Hfind) as [_ Hend].
  change (length publicPath) with 8%nat in Hend.
  assert (Hidx : find s publicPath = Z.of_nat i) by (unfold find; rewrite Hfind; reflexivity).
  unfold fits, size, npos, size_t_modulus in Hfits.
  destruct (rewritten_path_cases s) as [[_ [H | H]] | [p [_ [_ [Hp [_ Hs']]]]]].
  - congruence.
  - rewrite Hidx in H. unfold npos, size_t_modulus in H. lia.
  - rewrite Hidx in Hp.
    assert (Hlen : length p = (i - 14)%nat).
    { destruct (project_name_ok s (Z.of_nat i)) as [p' [Hp' Hlen]].
      - change (size srcrootPrefix) with 14. unfold size. lia.
      - rewrite Hp in Hp'. injection Hp' as <-. rewrite Hlen.
        change (size srcrootPrefix) with 14. unfold size_sub, size_t_modulus, size.
        rewrite Z.mod_small by lia. lia. }
    exists p. split; [exact Hp|]. split; [exact Hlen|]. split.
    + rewrite Hs', length_make_replacement, Hlen.
      replace (i - 14 + 14)%nat with i by lia.
      unfold make_replacement. rewrite <- !app_assoc. reflexivity.
    + apply find_from_sound in Hfind. rewrite Nat.sub_0_r in Hfind. exact Hfind.
Qed.

(** When [\public\] starts on the backslash that ends the root prefix,
    everything after the prefix is taken for the project name: the whole
    path is replaced, the marker is gone, and the result ends with
    [\src]. *)
Theorem rewritten_path_marker_on_prefix_result (rest : list ascii) :
  fits (srcrootPrefix ++ lit "public\" ++ rest) ->
  rewritten_path (srcrootPrefix ++ lit "public\" ++ rest)
  = Ok (Some (icachePrefix ++ lit "public_" ++ rest ++ icacheSuffix)).
Proof.
  intros Hfits. set (s := srcrootPrefix ++ lit "public\" ++ rest) in *.
  assert (Hpre : starts_with s srcrootPrefix = true).
  { apply starts_with_app. subst s. rewrite drop_app_length. reflexivity. }
  assert (Hidx : find s publicPath = 13).
  { apply find_marker_at_13; [exact Hpre | reflexivity]. }
  assert (Hlen : length s = (21 + length rest)%nat).
  { subst s. rewrite !length_app. reflexivity. }
  assert (Hp : project_name s 13 = Ok (lit "public_" ++ rest)).
  { unfold project_name, substr.
    change (size srcrootPrefix) with 14. change (size_sub 13 14) with (2 ^ 64 - 1).
    unfold fits, npos, size_t_modulus, size in *.
    destruct (Z.ltb_spec (Z.of_nat (length s)) 14) as [Hlt | _]; [lia|].
    rewrite Z.min_r by lia. cbn [bind].
    rewrite take_ge by (rewrite length_drop; lia).
    change (drop (Z.to_nat 14) s) with (lit "public" ++ "\"%char :: rest).
    change (lit "public_" ++ rest) with (lit "public" ++ "_"%char :: rest).
    apply separator_first.
    - unfold size, npos, size_t_modulus. rewrite length_app. simpl length.
      simpl length in Hfits. lia.
    - unfold lit. cbn [list_ascii_of_string].
      rewrite !not_elem_of_cons. repeat split; try discriminate.
      apply not_elem_of_nil. }
  unfold rewritten_path. rewrite Hpre, Hidx. cbn [negb Z.eqb npos].
  change (13 =? npos) with false. cbn [negb].
  rewrite Hp. cbn [bind].
  rewrite replace_leading.
  - rewrite drop_ge.
    + rewrite app_nil_r. unfold make_replacement. rewrite <- app_assoc. reflexivity.
    + rewrite length_make_replacement, length_app, Hlen. simpl length. lia.
  - rewrite length_make_replacement, length_app, Hlen. simpl length. lia.
Qed.

(** ** The integrity protocol of file.cxx *)

Section Integrity.

Variable hash_bytes : list byte -> SHA256Hash.
Variable bytes_to_hash : list byte -> SHA256Hash.

Local Abbreviation generate_content_hash := (generate_content_hash hash_bytes).
Local Abbreviation validate_content_integrity :=
  (validate_content_integrity hash_bytes bytes_to_hash).
Local Abbreviation reset_content_hash := (reset_content_hash hash_bytes).

Lemma length_object_bytes (h : SHA256Hash) :
  length (object_bytes h) = sizeof_SHA256Hash.
Proof. reflexivity. Qed.

Lemma byte_range_to_end (file : list byte) (first : nat) :
  byte_range file first (length file) = drop first file.
Proof.
  unfold byte_range. apply take_ge. rewrite length_drop. lia.
Qed.

Lemma byte_range_lookup (file : list byte) (first last i : nat) :
  (i < last - first)%nat ->
  byte_range file first last !! i = file !! (first + i)%nat.
Proof.
  intros H. unfold byte_range.
  rewrite lookup_take_lt by exact H. apply lookup_drop.
Qed.

Lemma generate_content_hash_body (file : list byte) :
  (contents_start <= length file)%nat ->
  generate_content_hash file = Ok (hash_bytes (body file)).
Proof.
  intros H. unfold generate_content_hash.
  destruct (Nat.leb_spec contents_start (length file)) as [_ | Hlt]; [|lia].
  rewrite byte_range_to_end. reflexivity.
Qed.

Lemma generate_content_hash_short (file : list byte) :
  (length file < contents_start)%nat ->
  generate_content_hash file = Undefined.
Proof.
  intros H. unfold generate_content_hash.
  destruct (Nat.leb_spec contents_start (length file)) as [Hle | _]; [lia|].
  reflexivity.
Qed.

(** A buffer laid out as signature, digest, body. *)
Lemma parts_of_layout (sig dig bod : list byte) :
  length sig = hash_start ->
  length dig = sizeof_SHA256Hash ->
  signature (sig ++ dig ++ bod) = sig
  /\ digest (sig ++ dig ++ bod) = dig
  /\ body (sig ++ dig ++ bod) = bod.
Proof.
  intros Hs Hd. unfold signature, digest, body, byte_range, contents_start.
  rewrite <- Hs, <- Hd. split; [|split].
  - apply take_app_length.
  - rewrite drop_app_length.
    replace (length sig + length dig - length sig)%nat with (length dig) by lia.
    apply take_app_length.
  - rewrite drop_app_add, drop_app_length. reflexivity.
Qed.

Lemma reset_content_hash_ok (file : list byte) :
  (contents_start <= length file)%nat ->
  reset_content_hash file
  = Ok (signature file ++ object_bytes (hash_bytes (body file)) ++ body file).
Proof.
  intros H. unfold reset_content_hash.
  rewrite (generate_content_hash_body _ H). cbn [bind]. unfold memcpy.
  rewrite length_object_bytes.
  replace ((hash_start + sizeof_SHA256Hash <=? length file)%nat
           && (sizeof_SHA256Hash <=? sizeof_SHA256Hash)%nat) with true.
  - rewrite (take_ge (object_bytes _)) by (rewrite length_object_bytes; lia).
    reflexivity.
  - symmetry. apply andb_true_iff.
    split; apply Nat.leb_le; [exact H | lia].
Qed.

Lemma length_signature (file : list byte) :
  (contents_start <= length file)%nat -> length (signature file) = hash_start.
Proof.
  intros H. unfold signature. rewrite length_take.
  unfold contents_start in H. lia.
Qed.

Lemma validate_content_integrity_spec (file : list byte) :
  (contents_start <= length file)%nat ->
  validate_content_integrity file
  = if decide (object_bytes (hash_bytes (body file)) = digest file)
    then Ok tt
    else Throw (IntegrityCheckFailed (bytes_to_hash (digest file))
                                     (hash_bytes (body file))).
Proof.
  intros H. unfold validate_content_integrity.
  rewrite (generate_content_hash_body _ H). cbn [bind].
  change (byte_range file hash_start (hash_start + sizeof_SHA256Hash))
    with (digest file).
  replace (byte_range (object_bytes (hash_bytes (body file))) 0
             (length (value (hash_bytes (body file))) * 4))
    with (object_bytes (hash_bytes (body file))).
  - destruct (std_equal Byte.eqb _ _) eqn:E; cbn [negb].
    + apply std_equal_byte in E. rewrite decide_True by exact E. reflexivity.
    + rewrite decide_False; [reflexivity|].
      intros Heq. apply std_equal_byte in Heq. congruence.
  - symmetry. unfold byte_range. rewrite drop_0. apply take_ge.
    rewrite length_object_bytes. unfold sizeof_SHA256Hash. simpl. lia.
Qed.

(** The buffer after a reset: same length, same signature, same body,
    and the digest is the hash of the body. *)
Lemma reset_content_hash_frame (file file' : list byte) :
  reset_content_hash file = Ok file' ->
  (contents_start <= length file)%nat
  /\ length file' = length file
  /\ signature file' = signature file
  /\ body file' = body file
  /\ digest file' = object_bytes (hash_bytes (body file')).
Proof.
  intros Hreset.
  destruct (Nat.le_gt_cases contents_start (length file)) as [H | H].
  2:{ unfold reset_content_hash in Hreset.
      rewrite (generate_content_hash_short _ H) in Hreset. discriminate. }
  assert (E : file' = signature file ++ object_bytes (hash_bytes (body file))
                      ++ body file).
  { rewrite (reset_content_hash_ok _ H) in Hreset. congruence. }
  clear Hreset. subst file'.
  destruct (parts_of_layout (signature file)
              (object_bytes (hash_bytes (body file))) (body file)
              (length_signature _ H) (length_object_bytes _))
    as [Hs [Hd Hb]].
  split; [exact H|]. split.
  { rewrite !length_app, length_object_bytes, (length_signature _ H).
    unfold body. rewrite length_drop. unfold contents_start in *. lia. }
  split; [exact Hs|]. split; [exact Hb|].
  rewrite Hd, Hb. reflexivity.
Qed.

(** After a reset the integrity check passes. *)
Lemma reset_content_hash_result (file file' : list byte) :
  reset_content_hash file = Ok file' ->
  validate_content_integrity file' = Ok tt.
Proof.
  intros Hreset.
  destruct (reset_content_hash_frame _ _ Hreset) as [H [Hlen [_ [_ Hd]]]].
  rewrite validate_content_integrity_spec by (rewrite Hlen; exact H).
  rewrite Hd. rewrite decide_True by reflexivity. reflexivity.
Qed.

Lemma length_digest (file : list byte) :
  (contents_start <= length file)%nat -> length (digest file) = sizeof_SHA256Hash.
Proof.
  intros H. unfold digest, byte_range. rewrite length_take, length_drop.
  unfold contents_start in *. lia.
Qed.

Lemma digest_lookup (file : list byte) (i : nat) :
  (i < sizeof_SHA256Hash)%nat -> digest file !! i = file !! (hash_start + i)%nat.
Proof.
  intros H. unfold digest. apply byte_range_lookup.
  unfold contents_start. lia.
Qed.

(** The comparison of [validate_content_integrity] is one of the 32
    stored bytes with the 32 bytes of the hash, position by position. *)
Lemma digest_matches_bytewise (file : list byte) (h : SHA256Hash) :
  (contents_start <= length file)%nat ->
  object_bytes h = digest file
  <-> forall i, (i < sizeof_SHA256Hash)%nat ->
                object_bytes h !! i = file !! (hash_start + i)%nat.
Proof.
  intros H. split.
  - intros E i Hi. rewrite E. apply digest_lookup. exact Hi.
  - intros E. apply list_eq. intros i.
    destruct (Nat.lt_ge_cases i sizeof_SHA256Hash) as [Hi | Hi].
    + rewrite (digest_lookup _ _ Hi). apply E. exact Hi.
    + rewrite !lookup_ge_None_2; [reflexivity | |].
      * rewrite length_digest by exact H. exact Hi.
      * rewrite length_object_bytes. exact Hi.
Qed.

(** C4: [contents_start] is [sizeof(signature) + sizeof(digest)], that is
    36; on a buffer that holds the header, [generate_content_hash] hashes
    the range from byte 36 to the end of the file, whose byte [i] is byte
    [36 + i] of the file for every [i] and which has [size - 36] bytes;
    [validate_content_integrity] returns exactly when each of the 32
    bytes of that hash equals the byte stored at [sizeof(signature) + i],
    and throws [IntegrityCheckFailed] with both values otherwise. *)
Theorem C4_digest_covers_body (file : list byte) :
  (36 <= length file)%nat ->
  contents_start = (sizeof_InterfaceSignature + sizeof_SHA256Hash)%nat
  /\ contents_start = 36%nat
  /\ generate_content_hash file
     = Ok (hash_bytes (byte_range file 36 (length file)))
  /\ (forall i, byte_range file 36 (length file) !! i = file !! (36 + i)%nat)
  /\ length (byte_range file 36 (length file)) = (length file - 36)%nat
  /\ (validate_content_integrity file = Ok tt
      <-> forall i, (i < 32)%nat ->
            object_bytes (hash_bytes (byte_range file 36 (length file))) !! i
            = file !! (sizeof_InterfaceSignature + i)%nat)
  /\ (validate_content_integrity file <> Ok tt ->
      validate_content_integrity file
      = Throw (IntegrityCheckFailed
                 (bytes_to_hash (byte_range file sizeof_InterfaceSignature 36))
                 (hash_bytes (byte_range file 36 (length file))))).
Proof.
  intros H. change 36%nat with contents_start in *.
  rewrite byte_range_to_end. fold (body file).
  split; [reflexivity|]. split; [reflexivity|].
  split; [apply generate_content_hash_body; exact H|].
  split; [intros i; apply lookup_drop|].
  split; [apply length_drop|].
  rewrite (validate_content_integrity_spec _ H).
  change (byte_range file sizeof_InterfaceSignature contents_start)
    with (digest file).
  pose proof (digest_matches_bytewise file (hash_bytes (body file)) H) as Hb.
  destruct (decide (object_bytes (hash_bytes (body file)) = digest file))
    as [E | E].
  - split; [|congruence]. split; [intros _; apply Hb, E | reflexivity].
  - split; [|reflexivity]. split; [discriminate|].
    intros Hall. exfalso. apply E, Hb, Hall.
Qed.

(** C9: on a buffer that holds the header, [reset_content_hash] returns a
    buffer of the same length in which every byte at an offset below 4
    (the signature) or from 36 on (the body) is the byte that was there
    before the call; only offsets 4 to 35 can differ. *)
Theorem C9_reset_changes_only_digest (file : list byte) :
  (36 <= length file)%nat ->
  exists file',
    reset_content_hash file = Ok file'
    /\ length file' = length file
    /\ signature file' = signature file
    /\ body file' = body file
    /\ forall i, (i < 4 \/ 36 <= i)%nat -> file' !! i = file !! i.
Proof.
  intros H. change 36%nat with contents_start in H.
  eexists. split; [apply reset_content_hash_ok; exact H|].
  destruct (reset_content_hash_frame _ _ (reset_content_hash_ok _ H))
    as [_ [Hlen [Hs [Hb _]]]].
  split; [exact Hlen|]. split; [exact Hs|]. split; [exact Hb|].
  intros i [Hi | Hi].
  - rewrite <- (lookup_take_lt _ hash_start i) by exact Hi.
    fold (signature (signature file ++ object_bytes (hash_bytes (body file))
                     ++ body file)).
    rewrite Hs. apply lookup_take_lt. exact Hi.
  - replace i with (contents_start + (i - contents_start))%nat
      by (change contents_start with 36%nat; lia).
    rewrite <- !lookup_drop.
    fold (body (signature file ++ object_bytes (hash_bytes (body file))
                ++ body file)).
    rewrite Hb. reflexivity.
Qed.

(** C3: on a buffer that holds the header, two calls of
    [reset_content_hash] in a row, the body untouched in between, write
    the same 32 digest bytes, the second call leaving the buffer as the
    first left it; [validate_content_integrity] returns normally after
    the first call and after the second. *)
Theorem C3_reset_idempotent (file : list byte) :
  (36 <= length file)%nat ->
  exists file1 file2,
    reset_content_hash file = Ok file1
    /\ reset_content_hash file1 = Ok file2
    /\ body file1 = body file
    /\ digest file1 = object_bytes (hash_bytes (body file))
    /\ digest file2 = digest file1
    /\ file2 = file1
    /\ validate_content_integrity file1 = Ok tt
    /\ validate_content_integrity file2 = Ok tt.
Proof.
  intros H. change 36%nat with contents_start in H.
  pose proof (reset_content_hash_ok _ H) as H1.
  destruct (reset_content_hash_frame _ _ H1) as [_ [Hlen [Hs [Hb Hd]]]].
  pose proof (reset_content_hash_result _ _ H1) as Hv.
  set (file1 := signature file ++ object_bytes (hash_bytes (body file))
                ++ body file) in *.
  assert (H2 : reset_content_hash file1 = Ok file1).
  { rewrite reset_content_hash_ok by (rewrite Hlen; exact H).
    rewrite Hs, Hb. reflexivity. }
  exists file1, file1.
  split; [exact H1|]. split; [exact H2|]. split; [exact Hb|].
  split; [rewrite Hd, Hb; reflexivity|].
  split; [reflexivity|]. split; [reflexivity|].
  split; exact Hv.
Qed.

(** ** More on the integrity protocol *)

Lemma header_layout (file : list byte) :
  (contents_start <= length file)%nat ->
  signature file ++ digest file ++ body file = file.
Proof.
  intros H. unfold signature, digest, byte_range, body, contents_start.
  replace (hash_start + sizeof_SHA256Hash - hash_start)%nat
    with sizeof_SHA256Hash by lia.
  rewrite app_assoc, take_take_drop. apply take_drop.
Qed.

Lemma integrity_needs_header (file : list byte) (r : unit) :
  validate_content_integrity file = Ok r -> (contents_start <= length file)%nat.
Proof.
  intros Hv. destruct (Nat.le_gt_cases contents_start (length file)) as [H | H];
    [exact H|].
  unfold validate_content_integrity in Hv.
  rewrite (generate_content_hash_short _ H) in Hv. discriminate.
Qed.

Lemma reset_valid_file (file : list byte) :
  validate_content_integrity file = Ok tt -> reset_content_hash file = Ok file.
Proof.
  intros Hv. pose proof (integrity_needs_header _ _ Hv) as H.
  rewrite (validate_content_integrity_spec _ H) in Hv.
  destruct (decide (object_bytes (hash_bytes (body file)) = digest file))
    as [E | E]; [|discriminate].
  rewrite (reset_content_hash_ok _ H), E, (header_layout _ H). reflexivity.
Qed.

(** [reset_content_hash] leaves a buffer exactly as it is if and only if
    the buffer passes [validate_content_integrity]. *)
Theorem reset_is_identity_on_valid_files (file : list byte) :
  validate_content_integrity file = Ok tt <-> reset_content_hash file = Ok file.
Proof.
  split; [apply reset_valid_file|].
  intros H. apply (reset_content_hash_result _ _ H).
Qed.

(** A buffer that has the body of a valid buffer but other digest bytes is
    rejected: [validate_content_integrity] throws [IntegrityCheckFailed]
    with the stored digest and the hash of the body. *)
Theorem integrity_check_rejects_other_digest (file file' : list byte) :
  validate_content_integrity file = Ok tt ->
  length file' = length file ->
  body file' = body file ->
  digest file' <> digest file ->
  validate_content_integrity file'
  = Throw (IntegrityCheckFailed (bytes_to_hash (digest file'))
                                (hash_bytes (body file))).
Proof.
  intros Hv Hlen Hbody Hdigest.
  pose proof (integrity_needs_header _ _ Hv) as H.
  rewrite (validate_content_integrity_spec _ H) in Hv.
  destruct (decide (object_bytes (hash_bytes (body file)) = digest file))
    as [E | E]; [|discriminate].
  rewrite validate_content_integrity_spec by (rewrite Hlen; exact H).
  rewrite Hbody. rewrite decide_False; [reflexivity|]. congruence.
Qed.

(** The signature is not covered by the digest: two buffers that agree
    from byte 4 on get the same hash and the same verdict of
    [validate_content_integrity]. *)
Theorem integrity_check_ignores_signature (file1 file2 : list byte) :
  drop hash_start file1 = drop hash_start file2 ->
  generate_content_hash file1 = generate_content_hash file2
  /\ validate_content_integrity file1 = validate_content_integrity file2.
Proof.
  intros Hrest.
  assert (Hlen : (length file1 - hash_start = length file2 - hash_start)%nat).
  { rewrite <- !length_drop, Hrest. reflexivity. }
  assert (Hbody : body file1 = body file2).
  { unfold body, contents_start. rewrite <- !drop_drop, Hrest. reflexivity. }
  assert (Hdigest : digest file1 = digest file2).
  { unfold digest, byte_range. rewrite Hrest. reflexivity. }
  unfold contents_start, hash_start, sizeof_InterfaceSignature, sizeof_SHA256Hash in *.
  destruct (Nat.le_gt_cases 36 (length file1)) as [H1 | H1].
  - assert (H2 : (36 <= length file2)%nat) by lia.
    rewrite !generate_content_hash_body, !validate_content_integrity_spec
      by assumption.
    rewrite Hbody, Hdigest. split; reflexivity.
  - assert (H2 : (length file2 < 36)%nat) by lia.
    unfold validate_content_integrity.
    rewrite !generate_content_hash_short by assumption.
    split; reflexivity.
Qed.

End Integrity.

(** ** The driver: process_ifc *)

Section Driver.

Variable hash_bytes : list byte -> SHA256Hash.
Variable bytes_to_hash : list byte -> SHA256Hash.
Variable validate_header : list byte -> result bool.
Variable partition_table : list byte -> list PartitionSummaryData.
Variable get : list byte -> TextOffset -> result (list ascii).
Variable set : list byte -> TextOffset -> list ascii -> list byte * result unit.
Variable read_array : list byte -> ByteOffset -> Cardinality -> result nat.
Variable source_file_name : list byte -> ByteOffset -> nat -> TextOffset.
Variable stem : list ascii -> list ascii.
Variables FS HANDLE : Type.
Variable CreateFileA : FS -> list ascii -> option HANDLE.
Variable GetFileSize : FS -> HANDLE -> Z.
Variable CreateFileMappingA : FS -> HANDLE -> option HANDLE.
Variable MapViewOfFile : FS -> HANDLE -> option (list byte).
Variable written_through : FS -> list ascii -> list byte -> FS.

Local Abbreviation validate_content_integrity :=
  (validate_content_integrity hash_bytes bytes_to_hash).
Local Abbreviation reset_content_hash := (reset_content_hash hash_bytes).
Local Abbreviation validate := (validate hash_bytes bytes_to_hash validate_header).
Local Abbreviation memory_map_file :=
  (memory_map_file FS HANDLE CreateFileA GetFileSize CreateFileMappingA
                   MapViewOfFile).
Local Abbreviation process_ifc :=
  (process_ifc hash_bytes bytes_to_hash validate_header partition_table get set
               read_array source_file_name FS HANDLE CreateFileA GetFileSize
               CreateFileMappingA MapViewOfFile written_through).
Local Abbreviation process_files :=
  (process_files hash_bytes bytes_to_hash validate_header partition_table get set
                 read_array source_file_name FS HANDLE CreateFileA GetFileSize
                 CreateFileMappingA MapViewOfFile written_through).
Local Abbreviation print_help := (print_help stem).
Local Abbreviation process_args := (process_args stem).
Local Abbreviation process_args_from := (process_args_from stem).
Local Abbreviation main :=
  (main hash_bytes bytes_to_hash validate_header partition_table get set
        read_array source_file_name stem FS HANDLE CreateFileA GetFileSize
        CreateFileMappingA MapViewOfFile written_through).
Local Abbreviation find_if := (find_if get).
Local Abbreviation reset_step := (reset_step hash_bytes).
Local Abbreviation rewrite_record := (rewrite_record get set source_file_name).
Local Abbreviation visit := (visit hash_bytes get set source_file_name).
Local Abbreviation visit_all := (visit_all hash_bytes get set source_file_name).
Local Abbreviation process_mapped :=
  (process_mapped hash_bytes bytes_to_hash validate_header partition_table
                  get set read_array source_file_name).

Lemma validate_checks_integrity (file : list byte) (b : bool) :
  validate file = Ok b -> validate_content_integrity file = Ok tt.
Proof.
  unfold validate.
  destruct (validate_content_integrity file) as [[] | e |]; simpl;
    [reflexivity | discriminate | discriminate].
Qed.

Lemma integrity_holds (file : list byte) :
  validate_content_integrity file = Ok tt ->
  (contents_start <= length file)%nat
  /\ digest file = object_bytes (hash_bytes (body file)).
Proof.
  intros Hv.
  destruct (Nat.le_gt_cases contents_start (length file)) as [H | H].
  - split; [exact H|].
    rewrite (validate_content_integrity_spec _ _ _ H) in Hv.
    destruct (decide (object_bytes (hash_bytes (body file)) = digest file))
      as [E | E]; [congruence | discriminate].
  - unfold validate_content_integrity in Hv.
    rewrite (generate_content_hash_short _ _ H) in Hv. discriminate.
Qed.

Lemma find_if_cons (file : list byte) (e : PartitionSummaryData)
      (rest : list PartitionSummaryData) :
  find_if file (e :: rest)
  = (do s <- get file (name e) ;;
     if std_equal Ascii.eqb sourceFilePartitionName s then Ok (Some e)
     else find_if file rest).
Proof. reflexivity. Qed.

Lemma find_if_absent (file : list byte) (table : list PartitionSummaryData) :
  Forall (fun entry => exists s, get file (name entry) = Ok s
                                 /\ s <> sourceFilePartitionName) table ->
  find_if file table = Ok None.
Proof.
  induction 1 as [| entry rest [s [Hs Hne]] _ IH]; [reflexivity|].
  rewrite find_if_cons, Hs. cbn [bind].
  destruct (std_equal Ascii.eqb sourceFilePartitionName s) eqn:E.
  - apply std_equal_ascii in E. congruence.
  - exact IH.
Qed.

Lemma find_if_found (file : list byte) (table : list PartitionSummaryData)
      (entry : PartitionSummaryData) :
  find_if file table = Ok (Some entry) ->
  entry ∈ table /\ get file (name entry) = Ok sourceFilePartitionName.
Proof.
  induction table as [| e rest IH]; [discriminate|].
  rewrite find_if_cons.
  destruct (get file (name e)) as [s | |] eqn:Hs; cbn [bind]; try discriminate.
  destruct (std_equal Ascii.eqb sourceFilePartitionName s) eqn:E.
  - intros [= ->]. apply std_equal_ascii in E. subst s.
    split; [left | exact Hs].
  - intros H. destruct (IH H) as [Hin Hget]. split; [right; exact Hin | exact Hget].
Qed.

Lemma find_if_present (file : list byte) (table : list PartitionSummaryData)
      (k : nat) (entry : PartitionSummaryData) :
  table !! k = Some entry ->
  get file (name entry) = Ok sourceFilePartitionName ->
  find_if file table <> Ok None.
Proof.
  revert k. induction table as [| e rest IH]; intros k Hk Hget; [discriminate|].
  rewrite find_if_cons.
  destruct (get file (name e)) as [s | |] eqn:Hs; cbn [bind]; try discriminate.
  destruct (std_equal Ascii.eqb sourceFilePartitionName s) eqn:E; [discriminate|].
  destruct k as [|k]; simpl in Hk.
  - injection Hk as ->. rewrite Hget in Hs. injection Hs as <-.
    assert (std_equal Ascii.eqb sourceFilePartitionName sourceFilePartitionName = true)
      by (apply std_equal_ascii; reflexivity).
    congruence.
  - apply (IH k Hk Hget).
Qed.

Lemma resets_snoc_reset (events : list event) :
  resets (events ++ [ResetContentHash]) = S (resets events).
Proof. unfold resets. rewrite filter_app, length_app. simpl. lia. Qed.

Lemma resets_snoc_set (events : list event) (ref : TextOffset) (s : list ascii) :
  resets (events ++ [SetString ref s]) = resets events.
Proof. unfold resets. rewrite filter_app, length_app. simpl. lia. Qed.

(** The rewrite of a record calls no reset, however it ends. *)
Lemma rewrite_record_resets (at_ : ByteOffset) (i : nat) (st st' : Mapped)
      (r : result unit) :
  rewrite_record at_ i st = (st', r) -> resets (log st') = resets (log st).
Proof.
  unfold rewrite_record.
  destruct (negb (source_file_name (contents st) at_ i =? 0)).
  2:{ unfold pure. intros [= <- _]. reflexivity. }
  unfold step_bind, reading, pure.
  destruct (get (contents st) _) as [s | e |]; try (intros [= <- _]; reflexivity).
  destruct (rewritten_path s) as [[s' |] | e |];
    try (intros [= <- _]; reflexivity).
  unfold set_step. destruct (set (contents st) _ s') as [file r'].
  intros [= <- _]. simpl. apply resets_snoc_set.
Qed.

(** A visit that returns ends with a reset. *)
Lemma visit_returns (at_ : ByteOffset) (i : nat) (st st' : Mapped) :
  visit at_ i st = (st', Ok tt) ->
  resets (log st') = S (resets (log st))
  /\ last (log st') = Some ResetContentHash
  /\ validate_content_integrity (contents st') = Ok tt.
Proof.
  unfold visit, step_bind.
  destruct (rewrite_record at_ i st) as [mid [[] | e |]] eqn:Hrec;
    try discriminate.
  apply rewrite_record_resets in Hrec.
  unfold reset_step.
  destruct (reset_content_hash (contents mid)) as [file | e |] eqn:Hreset;
    try discriminate.
  intros [= <-]. simpl.
  split; [rewrite resets_snoc_reset, Hrec; reflexivity|].
  split; [apply last_snoc|].
  apply (reset_content_hash_result _ _ _ _ Hreset).
Qed.

Lemma visit_all_returns (at_ : ByteOffset) (records : list nat) (st st' : Mapped) :
  visit_all at_ records st = (st', Ok tt) ->
  resets (log st') = (resets (log st) + length records)%nat
  /\ (records = [] -> st' = st)
  /\ (records <> [] ->
      last (log st') = Some ResetContentHash
      /\ validate_content_integrity (contents st') = Ok tt).
Proof.
  revert st. induction records as [| i rest IH]; intros st; simpl.
  - unfold pure. intros [= <-]. split; [lia|]. split; [reflexivity | congruence].
  - unfold step_bind at 1.
    destruct (visit at_ i st) as [st1 [[] | e |]] eqn:Hvisit; try discriminate.
    intros Hrest. apply visit_returns in Hvisit as [Hn [Hlast Hv]].
    destruct (IH _ Hrest) as [Hn' [Hnil Hcons]].
    split; [lia|]. split; [discriminate|]. intros _.
    destruct rest as [| j rest].
    + rewrite (Hnil eq_refl). split; assumption.
    + apply Hcons. discriminate.
Qed.

(** [process_ifc] once validation has passed. *)
Lemma process_mapped_validated (file : list byte) (b : bool) (events : list event) :
  validate file = Ok b ->
  process_mapped {| contents := file; log := events |}
  = match find_if file (partition_table file) with
    | Ok None => ({| contents := file; log := events |}, Ok tt)
    | Ok (Some entry) =>
        match read_array file (offset entry) (cardinality entry) with
        | Ok n => visit_all (offset entry) (seq 0 n)
                            {| contents := file; log := events |}
        | Throw e => ({| contents := file; log := events |}, Throw e)
        | Undefined => ({| contents := file; log := events |}, Undefined)
        end
    | Throw e => ({| contents := file; log := events |}, Throw e)
    | Undefined => ({| contents := file; log := events |}, Undefined)
    end.
Proof.
  intros Hv. unfold process_mapped, step_bind, reading, pure.
  cbn [contents]. rewrite Hv.
  destruct (find_if file (partition_table file)) as [[entry |] | e |];
    reflexivity.
Qed.

(** C5: when the container passes validation and every row of its
    partition table has a name that resolves to a string other than
    [name.source-file], [process_ifc] returns normally: no exception, no
    call of [set] and none of [reset_content_hash] (the log of calls is
    empty), and the mapped bytes are the bytes that were mapped. *)
Theorem C5_missing_partition_is_no_error (file : list byte) (b : bool) :
  validate file = Ok b ->
  Forall (fun entry => exists s, get file (name entry) = Ok s
                                 /\ s <> sourceFilePartitionName)
         (partition_table file) ->
  find_if file (partition_table file) = Ok None
  /\ process_mapped {| contents := file; log := [] |}
     = ({| contents := file; log := [] |}, Ok tt)
  /\ forall fs path,
       memory_map_file fs path = Ok file ->
       process_ifc fs path = (written_through fs path file, Ok tt).
Proof.
  intros Hv Hnames.
  pose proof (find_if_absent _ _ Hnames) as Hnone.
  assert (Hrun : process_mapped {| contents := file; log := [] |}
                 = ({| contents := file; log := [] |}, Ok tt)).
  { rewrite (process_mapped_validated _ _ _ Hv), Hnone. reflexivity. }
  split; [exact Hnone|]. split; [exact Hrun|].
  intros fs path Hmap. unfold process_ifc.
  rewrite Hmap, Hrun. reflexivity.
Qed.

(** C1: when the container passes validation, its partition table has a
    row named [name.source-file] with cardinality at least 1, and
    [process_ifc] returns normally, then in the final bytes the stored
    digest is the hash of the body (bytes 36 to the end) and the
    integrity check passes.  [reset_content_hash] has been called once
    for each record of the span visited, and when a record was visited
    the last call logged is a reset, so that no [set] comes after it. *)
Theorem C1_digest_reestablished (file : list byte) (b : bool) (k : nat)
        (entry : PartitionSummaryData) (st' : Mapped) :
  validate file = Ok b ->
  partition_table file !! k = Some entry ->
  get file (name entry) = Ok sourceFilePartitionName ->
  1 <= cardinality entry ->
  process_mapped {| contents := file; log := [] |} = (st', Ok tt) ->
  digest (contents st') = object_bytes (hash_bytes (body (contents st')))
  /\ validate_content_integrity (contents st') = Ok tt
  /\ exists found n,
       find_if file (partition_table file) = Ok (Some found)
       /\ get file (name found) = Ok sourceFilePartitionName
       /\ read_array file (offset found) (cardinality found) = Ok n
       /\ resets (log st') = n
       /\ (n = 0%nat -> st' = {| contents := file; log := [] |})
       /\ (n <> 0%nat -> last (log st') = Some ResetContentHash).
Proof.
  intros Hv Hk Hname _ Hrun.
  pose proof (find_if_present file _ k entry Hk Hname) as Hsome.
  rewrite (process_mapped_validated _ _ _ Hv) in Hrun.
  destruct (find_if file (partition_table file)) as [[found |] | e |] eqn:Hfind;
    try discriminate; [|congruence].
  destruct (read_array file (offset found) (cardinality found)) as [n | e |] eqn:Hread;
    try discriminate.
  apply visit_all_returns in Hrun as [Hn [Hnil Hcons]].
  rewrite length_seq in Hn. simpl in Hn.
  assert (Hint : validate_content_integrity (contents st') = Ok tt).
  { destruct n as [|n].
    - rewrite (Hnil eq_refl). simpl. exact (validate_checks_integrity _ _ Hv).
    - apply Hcons. discriminate. }
  split; [apply integrity_holds; exact Hint|]. split; [exact Hint|].
  exists found, n. split; [reflexivity|].
  split; [apply (find_if_found _ _ _ Hfind)|].
  split; [exact Hread|]. split; [exact Hn|]. split.
  - intros ->. apply Hnil. reflexivity.
  - intros Hne. apply Hcons. destruct n; [congruence | discriminate].
Qed.

(** *** The command line and main *)

Lemma file_argument_not_help (arg : list ascii) :
  file_argument arg ->
  std_equal Ascii.eqb arg (lit "--help") || std_equal Ascii.eqb arg (lit "-h") = false.
Proof.
  intros Hfile. apply orb_false_iff.
  split; apply not_true_is_false; intros E; apply std_equal_ascii in E;
    subst arg; apply Hfile; reflexivity.
Qed.

Lemma process_args_from_cons (argv0 arg : list ascii) (rest files : list (list ascii)) :
  process_args_from argv0 (arg :: rest) files
  = if std_equal Ascii.eqb arg (lit "--help") || std_equal Ascii.eqb arg (lit "-h")
    then (print_help argv0, Exit 0)
    else if negb (Ascii.eqb (first_char arg) "-"%char)
    then process_args_from argv0 rest (files ++ [arg])
    else (lit "Unknown command line argument '" ++ arg ++ lit "'" ++ nl
          ++ print_help argv0, Exit 1).
Proof. reflexivity. Qed.

Lemma process_args_from_file (argv0 arg : list ascii) (rest files : list (list ascii)) :
  file_argument arg ->
  process_args_from argv0 (arg :: rest) files
  = process_args_from argv0 rest (files ++ [arg]).
Proof.
  intros Hfile. rewrite process_args_from_cons, (file_argument_not_help _ Hfile).
  destruct (Ascii.eqb_spec (first_char arg) "-"%char) as [E | _];
    [contradiction | reflexivity].
Qed.

(** File arguments only: nothing is printed and all of them are kept. *)
Lemma process_args_from_files (argv0 : list ascii) (args files : list (list ascii)) :
  Forall file_argument args ->
  files ++ args <> [] ->
  process_args_from argv0 args files = ([], Files (files ++ args)).
Proof.
  intros Hall. revert files. induction Hall as [| arg rest Hfile _ IH]; intros files Hne.
  - rewrite app_nil_r in *. simpl. rewrite bool_decide_eq_false_2 by exact Hne.
    reflexivity.
  - rewrite (process_args_from_file _ _ _ _ Hfile), IH.
    + rewrite <- app_assoc. reflexivity.
    + rewrite <- app_assoc. exact Hne.
Qed.

(** A flag other than the help flags, after file arguments. *)
Lemma process_args_from_flag (argv0 arg : list ascii) (before rest files : list (list ascii)) :
  Forall file_argument before ->
  first_char arg = "-"%char ->
  arg <> lit "--help" -> arg <> lit "-h" ->
  process_args_from argv0 (before ++ arg :: rest) files
  = (lit "Unknown command line argument '" ++ arg ++ lit "'" ++ nl
     ++ print_help argv0, Exit 1).
Proof.
  intros Hall Hdash Hhelp Hh. revert files.
  induction Hall as [| f before Hfile _ IH]; intros files.
  - simpl app. rewrite process_args_from_cons.
    replace (std_equal Ascii.eqb arg (lit "--help")) with false
      by (symmetry; apply not_true_is_false; intros E;
          apply std_equal_ascii in E; contradiction).
    replace (std_equal Ascii.eqb arg (lit "-h")) with false
      by (symmetry; apply not_true_is_false; intros E;
          apply std_equal_ascii in E; contradiction).
    rewrite Hdash. reflexivity.
  - simpl app. rewrite (process_args_from_file _ _ _ _ Hfile). apply IH.
Qed.

Lemma process_files_app (fs : FS) (before after : list (list ascii)) :
  process_files fs (before ++ after)
  = match process_files fs before with
    | (fs', Ok _) => process_files fs' after
    | failed => failed
    end.
Proof.
  revert fs. induction before as [| f before IH]; intros fs; [reflexivity|].
  simpl. destruct (process_ifc fs f) as [fs1 [[] | e |]]; [apply IH | reflexivity ..].
Qed.

Lemma identifies_kind_iff (e : exn) :
  identifies_kind e <-> e = IfcArchMismatch \/ exists m, e = CStringMessage m.
Proof.
  split.
  - intros H. destruct e; try (left; reflexivity); try (right; eexists; reflexivity).
    + specialize (H MalformedContainer eq_refl). discriminate.
    + specialize (H UnresolvedReference eq_refl). discriminate.
    + specialize (H MalformedContainer eq_refl). discriminate.
    + specialize (H MalformedContainer eq_refl). discriminate.
    + specialize (H MalformedContainer eq_refl). discriminate.
  - intros [-> | [m ->]] e' He'; destruct e'; try reflexivity; discriminate.
Qed.

(** C7: a failure [e] raised by [process_ifc] on one of the files, the
    files before it having been processed, makes [main] return
    [EXIT_FAILURE], which is 1, after printing [translate_exception e]
    on the error stream: [ifc architecture mismatch] for
    [IfcArchMismatch], [caught: ] followed by the message for a thrown C
    string, and the one text [unknown exception caught] for every other
    failure, [IntegrityCheckFailed], [MalformedContainer] and
    [UnresolvedReference] among them.  The text tells the kind of the
    failure apart from the other kinds exactly in the first two cases. *)
Theorem C7_failure_exit_code_and_message
        (fs fs1 fs2 : FS) (argv0 file : list ascii)
        (before after : list (list ascii)) (e : exn) :
  Forall file_argument (before ++ file :: after) ->
  process_files fs before = (fs1, Ok tt) ->
  process_ifc fs1 file = (fs2, Throw e) ->
  let r := main fs argv0 (before ++ file :: after) in
  status r = Returned 1
  /\ stderr r = translate_exception e
  /\ (e = IfcArchMismatch -> stderr r = lit "ifc architecture mismatch" ++ nl)
  /\ (forall m, e = CStringMessage m -> stderr r = lit "caught: " ++ m)
  /\ (e <> IfcArchMismatch -> (forall m, e <> CStringMessage m) ->
      stderr r = lit "unknown exception caught" ++ nl)
  /\ (identifies_kind e <-> e = IfcArchMismatch \/ exists m, e = CStringMessage m).
Proof.
  intros Hargs Hbefore Hfile r.
  assert (Hr : r = {| status := Returned EXIT_FAILURE; stdout := [];
                      stderr := translate_exception e; disk := fs2 |}).
  { subst r. unfold main, process_args.
    rewrite (process_args_from_files argv0 _ [] Hargs)
      by (simpl; destruct before; discriminate).
    simpl app. rewrite process_files_app, Hbefore.
    simpl. rewrite Hfile. reflexivity. }
  rewrite Hr. cbn [status stderr].
  split; [reflexivity|]. split; [reflexivity|].
  split; [intros ->; reflexivity|].
  split; [intros m ->; reflexivity|].
  split; [|apply identifies_kind_iff].
  intros Harch Hmsg. destruct e; try reflexivity.
  - contradiction.
  - exfalso. apply (Hmsg message). reflexivity.
Qed.

(** C10: with only file arguments before it, the argument [--color], or
    [-c], or any other argument that begins with [-] and is neither
    [--help] nor [-h], makes the program print
    [Unknown command line argument '...'] and the usage text and exit
    with code 1, no file being processed; that usage text lists
    [[--color/-c]] among the arguments of the program. *)
Theorem C10_color_flag_is_rejected
        (fs : FS) (argv0 arg : list ascii) (before rest : list (list ascii)) :
  Forall file_argument before ->
  arg = lit "--color" \/ arg = lit "-c"
  \/ (first_char arg = "-"%char /\ arg <> lit "--help" /\ arg <> lit "-h") ->
  let r := main fs argv0 (before ++ arg :: rest) in
  status r = Returned 1
  /\ stdout r = lit "Unknown command line argument '" ++ arg ++ lit "'" ++ nl
                ++ print_help argv0
  /\ stderr r = []
  /\ disk r = fs
  /\ print_help argv0
     = lit "Usage:" ++ nl ++ nl
       ++ stem argv0 ++ lit " ifc-file1 [ifc-file2 ...] [--color/-c]" ++ nl
       ++ stem argv0 ++ lit " --help/-h" ++ nl.
Proof.
  intros Hbefore Harg r.
  assert (Hflag : first_char arg = "-"%char /\ arg <> lit "--help" /\ arg <> lit "-h").
  { destruct Harg as [-> | [-> | H]]; [| | exact H];
      (split; [reflexivity | split; discriminate]). }
  destruct Hflag as [Hdash [Hhelp Hh]].
  subst r. unfold main, process_args.
  rewrite (process_args_from_flag argv0 arg before rest [] Hbefore Hdash Hhelp Hh).
  cbn [status stdout stderr disk]. repeat split; reflexivity.
Qed.

(** ** More on the driver *)

Local Abbreviation set_step := (set_step set).

Lemma accounted_reading {A} (f : list byte -> result A) : accounted (reading f).
Proof.
  intros st st' r [= <- _]. exists []. split; [symmetry; apply app_nil_r | reflexivity].
Qed.

Lemma accounted_pure {A} (r : result A) : accounted (pure r).
Proof.
  intros st st' r' [= <- _]. exists []. split; [symmetry; apply app_nil_r | reflexivity].
Qed.

Lemma accounted_bind {A B} (m : step A) (k : A -> step B) :
  accounted m -> (forall a, accounted (k a)) -> accounted (step_bind m k).
Proof.
  intros Hm Hk st st' r. unfold step_bind.
  destruct (m st) as [st1 r1] eqn:E1.
  destruct (Hm _ _ _ E1) as [ev1 [Hlog1 Hsame1]].
  destruct r1 as [a | e |].
  - intros E2. destruct (Hk a _ _ _ E2) as [ev2 [Hlog2 Hsame2]].
    exists (ev1 ++ ev2). split.
    + rewrite Hlog2, Hlog1, app_assoc. reflexivity.
    + intros Hnil. apply app_eq_nil in Hnil as [-> ->].
      rewrite (Hsame2 eq_refl). apply Hsame1. reflexivity.
  - intros [= <- _]. exists ev1. split; assumption.
  - intros [= <- _]. exists ev1. split; assumption.
Qed.

Lemma accounted_set_step (ref : TextOffset) (s : list ascii) :
  accounted (set_step ref s).
Proof.
  intros st st' r. unfold set_step.
  destruct (set (contents st) ref s) as [file r'].
  intros [= <- _]. exists [SetString ref s]. split; [reflexivity | discriminate].
Qed.

Lemma accounted_reset_step : accounted reset_step.
Proof.
  intros st st' r. unfold reset_step.
  destruct (reset_content_hash (contents st)) as [file | e |].
  - intros [= <- _]. exists [ResetContentHash]. split; [reflexivity | discriminate].
  - intros [= <- _]. exists []. split; [symmetry; apply app_nil_r | reflexivity].
  - intros [= <- _]. exists []. split; [symmetry; apply app_nil_r | reflexivity].
Qed.

Lemma accounted_rewrite_record (at_ : ByteOffset) (i : nat) :
  accounted (rewrite_record at_ i).
Proof.
  intros st st' r. unfold rewrite_record.
  match goal with
  | |- ?m st = _ -> _ => assert (Hm : accounted m); [|apply Hm]
  end.
  destruct (negb _); [|apply accounted_pure].
  apply accounted_bind; [apply accounted_reading|]. intros s.
  apply accounted_bind; [apply accounted_pure|]. intros [s'|].
  - apply accounted_set_step.
  - apply accounted_pure.
Qed.

Lemma accounted_visit_all (at_ : ByteOffset) (records : list nat) :
  accounted (visit_all at_ records).
Proof.
  induction records as [| i rest IH]; [apply accounted_pure|].
  apply accounted_bind; [|intros _; exact IH].
  apply accounted_bind; [apply accounted_rewrite_record|].
  intros _. apply accounted_reset_step.
Qed.

(** [process_ifc] changes the mapped bytes only by calls of [set] and of
    [reset_content_hash]: however a run ends, if neither was called the
    bytes are the bytes that were mapped. *)
Theorem process_mapped_changes_only_by_set_or_reset (st st' : Mapped) (r : result unit) :
  process_mapped st = (st', r) ->
  exists events,
    log st' = log st ++ events /\ (events = [] -> contents st' = contents st).
Proof.
  intros H.
  assert (Hacc : accounted process_mapped).
  { unfold process_mapped.
    apply accounted_bind; [apply accounted_reading|]. intros _ st0 st1 r1.
    match goal with
    | |- ?m st0 = _ -> _ => assert (Hm : accounted m); [|apply Hm]
    end.
    apply accounted_bind; [apply accounted_reading|]. intros [entry|].
    - apply accounted_bind; [apply accounted_reading|]. intros n.
      apply accounted_visit_all.
    - apply accounted_pure. }
  destruct (Hacc _ _ _ H) as [events [Hlog Hsame]].
  exists events. split; [exact Hlog|]. intros ->. rewrite (Hsame eq_refl). reflexivity.
Qed.

(** A file whose stored digest is not the hash of its body is rejected
    before anything is written: [process_ifc] throws
    [IntegrityCheckFailed], carrying the stored digest and the hash of the
    body, with the bytes untouched and no call of [set] or of
    [reset_content_hash]. *)
Theorem process_mapped_rejects_damaged_file (file : list byte) :
  (36 <= length file)%nat ->
  object_bytes (hash_bytes (body file)) <> digest file ->
  process_mapped {| contents := file; log := [] |}
  = ({| contents := file; log := [] |},
     Throw (IntegrityCheckFailed (bytes_to_hash (digest file))
                                 (hash_bytes (body file)))).
Proof.
  intros H Hne. unfold process_mapped, step_bind, reading, validate.
  cbn [contents].
  rewrite (validate_content_integrity_spec _ _ _ H).
  rewrite decide_False by exact Hne. reflexivity.
Qed.

(** [set] is only ever called for a record whose name is not 0 and whose
    path was rewritten, and the string it is given has the length of the
    string that [get] returned and starts with [ICACHECUR\]. *)
Theorem rewrite_record_sets_same_length
        (at_ : ByteOffset) (i : nat) (st st' : Mapped) (r : result unit) :
  rewrite_record at_ i st = (st', r) ->
  st' = st
  \/ exists s s',
       let ref := source_file_name (contents st) at_ i in
       ref <> 0
       /\ get (contents st) ref = Ok s
       /\ rewritten_path s = Ok (Some s')
       /\ length s' = length s
       /\ starts_with s' icachePrefix = true
       /\ contents st' = fst (set (contents st) ref s')
       /\ log st' = log st ++ [SetString ref s']
       /\ r = snd (set (contents st) ref s').
Proof.
  unfold rewrite_record.
  destruct (Z.eqb_spec (source_file_name (contents st) at_ i) 0) as [E | E];
    cbn [negb].
  { unfold pure. intros [= <- _]. left. reflexivity. }
  unfold step_bind, reading, pure.
  destruct (get (contents st) _) as [s | e |] eqn:Hget;
    try (intros [= <- _]; left; reflexivity).
  destruct (rewritten_path_cases s) as [[H0 _] | [p [_ [_ [_ [Hr Hs']]]]]].
  - rewrite H0. intros [= <- _]. left. reflexivity.
  - rewrite Hs'. unfold set_step.
    set (s' := make_replacement p ++ drop (length (make_replacement p)) s) in *.
    destruct (set (contents st) _ s') as [file r'] eqn:Hset.
    intros [= <- <-]. right. exists s, s'. cbv zeta. rewrite Hset.
    split; [exact E|]. split; [reflexivity|]. split; [exact Hs'|].
    split; [subst s'; rewrite length_app, length_drop; lia|].
    split; [apply rewritten_starts_with_icache|].
    repeat split; reflexivity.
Qed.

(** [std::find_if] returns the first row whose name is
    [name.source-file]: the rows before it resolve to other names, and a
    later row of that name is not looked at. *)
Theorem find_if_returns_first_match
        (file : list byte) (table : list PartitionSummaryData)
        (entry : PartitionSummaryData) :
  find_if file table = Ok (Some entry)
  <-> exists before after,
        table = before ++ entry :: after
        /\ get file (name entry) = Ok sourceFilePartitionName
        /\ Forall (fun row => exists s, get file (name row) = Ok s
                                        /\ s <> sourceFilePartitionName) before.
Proof.
  split.
  - induction table as [| e rest IH]; [discriminate|].
    rewrite find_if_cons.
    destruct (get file (name e)) as [s | |] eqn:Hs; cbn [bind]; try discriminate.
    destruct (std_equal Ascii.eqb sourceFilePartitionName s) eqn:E.
    + intros [= ->]. apply std_equal_ascii in E. subst s.
      exists [], rest. split; [reflexivity|]. split; [exact Hs | constructor].
    + intros H. destruct (IH H) as [before [after [-> [Hget Hall]]]].
      exists (e :: before), after. split; [reflexivity|]. split; [exact Hget|].
      constructor; [|exact Hall]. exists s. split; [exact Hs|].
      intros ->.
      assert (std_equal Ascii.eqb sourceFilePartitionName sourceFilePartitionName = true)
        by (apply std_equal_ascii; reflexivity).
      congruence.
  - intros [before [after [-> [Hget Hall]]]].
    induction Hall as [| row before [s [Hs Hne]] _ IH]; simpl app;
      rewrite find_if_cons.
    + rewrite Hget. cbn [bind].
      replace (std_equal Ascii.eqb sourceFilePartitionName sourceFilePartitionName)
        with true by (symmetry; apply std_equal_ascii; reflexivity).
      reflexivity.
    + rewrite Hs. cbn [bind].
      destruct (std_equal Ascii.eqb sourceFilePartitionName s) eqn:E.
      * apply std_equal_ascii in E. congruence.
      * exact IH.
Qed.

(** A partition name that does not resolve, met before any row named
    [name.source-file], ends [process_ifc] with the exception of [get];
    nothing has been written. *)
Theorem unresolved_partition_name_aborts
        (file : list byte) (b : bool) (before after : list PartitionSummaryData)
        (bad : PartitionSummaryData) (e : exn) :
  validate file = Ok b ->
  partition_table file = before ++ bad :: after ->
  Forall (fun row => exists s, get file (name row) = Ok s
                                /\ s <> sourceFilePartitionName) before ->
  get file (name bad) = Throw e ->
  process_mapped {| contents := file; log := [] |}
  = ({| contents := file; log := [] |}, Throw e).
Proof.
  intros Hv Htable Hall Hbad.
  rewrite (process_mapped_validated _ _ _ Hv), Htable.
  assert (Hfind : find_if file (before ++ bad :: after) = Throw e).
  { clear Htable. induction Hall as [| row before [s [Hs Hne]] _ IH]; simpl app;
      rewrite find_if_cons.
    - rewrite Hbad. reflexivity.
    - rewrite Hs. cbn [bind].
      destruct (std_equal Ascii.eqb sourceFilePartitionName s) eqn:E.
      + apply std_equal_ascii in E. congruence.
      + exact IH. }
  rewrite Hfind. reflexivity.
Qed.

Lemma visit_all_without_match (file : list byte) (at_ : ByteOffset)
      (records : list nat) (events : list event) :
  validate_content_integrity file = Ok tt ->
  Forall (fun i => source_file_name file at_ i = 0
                   \/ exists s, get file (source_file_name file at_ i) = Ok s
                                 /\ rewritten_path s = Ok None) records ->
  visit_all at_ records {| contents := file; log := events |}
  = ({| contents := file;
        log := events ++ replicate (length records) ResetContentHash |}, Ok tt).
Proof.
  intros Hv Hall. revert events.
  induction Hall as [| i rest Hi _ IH]; intros events.
  - simpl. unfold pure. rewrite app_nil_r. reflexivity.
  - assert (Hvisit : visit at_ i {| contents := file; log := events |}
                     = ({| contents := file; log := events ++ [ResetContentHash] |},
                        Ok tt)).
    { unfold visit, step_bind.
      assert (Hrec : rewrite_record at_ i {| contents := file; log := events |}
                     = ({| contents := file; log := events |}, Ok tt)).
      { unfold rewrite_record. cbn [contents].
        destruct (Z.eqb_spec (source_file_name file at_ i) 0) as [E | E];
          cbn [negb]; [reflexivity|].
        destruct Hi as [Hi | [s [Hs Hnone]]]; [contradiction|].
        unfold step_bind, reading, pure. cbn [contents].
        rewrite Hs, Hnone. reflexivity. }
      rewrite Hrec. unfold reset_step. cbn [contents log].
      rewrite (reset_valid_file _ _ _ Hv). reflexivity. }
    change (visit_all at_ (i :: rest))
      with (step_bind (visit at_ i) (fun _ => visit_all at_ rest)).
    unfold step_bind at 1. rewrite Hvisit, IH.
    rewrite <- app_assoc. reflexivity.
Qed.

(** When no record of the partition has a path that the rule rewrites
    (its name is 0, or its path lacks the prefix or the marker), a
    validated file is byte for byte the same after [process_ifc]: each of
    the [n] resets writes the digest that is already there. *)
Theorem process_mapped_without_match_keeps_bytes
        (file : list byte) (b : bool) (entry : PartitionSummaryData) (n : nat) :
  validate file = Ok b ->
  find_if file (partition_table file) = Ok (Some entry) ->
  read_array file (offset entry) (cardinality entry) = Ok n ->
  (forall i, (i < n)%nat ->
     source_file_name file (offset entry) i = 0
     \/ exists s, get file (source_file_name file (offset entry) i) = Ok s
                   /\ rewritten_path s = Ok None) ->
  process_mapped {| contents := file; log := [] |}
  = ({| contents := file; log := replicate n ResetContentHash |}, Ok tt).
Proof.
  intros Hv Hfind Hread Hrecords.
  rewrite (process_mapped_validated _ _ _ Hv), Hfind, Hread.
  rewrite (visit_all_without_match file (offset entry) (seq 0 n) []).
  - rewrite length_seq. reflexivity.
  - exact (validate_checks_integrity _ _ Hv).
  - apply Forall_forall. intros i Hi. apply Hrecords.
    apply elem_of_seq in Hi. lia.
Qed.

(** ** More on the command line and main *)

Lemma process_args_from_nil (argv0 : list ascii) (files : list (list ascii)) :
  process_args_from argv0 [] files
  = if bool_decide (files = [])
    then (lit "Specify filepath of an ifc file" ++ nl ++ print_help argv0, Exit 1)
    else ([], Files files).
Proof. reflexivity. Qed.

Lemma process_args_from_outcomes (argv0 : list ascii) (args files : list (list ascii)) :
  let '(out, outcome) := process_args_from argv0 args files in
  match outcome with
  | Files files' =>
      out = [] /\ files' = files ++ args /\ files' <> []
      /\ Forall file_argument args
  | Exit code =>
      (code = 0 \/ code = 1)
      /\ (exists text, out = text ++ print_help argv0)
      /\ (code = 0 -> lit "--help" ∈ args \/ lit "-h" ∈ args)
  end.
Proof.
  revert files. induction args as [| arg rest IH]; intros files.
  - rewrite process_args_from_nil. case_bool_decide as Hnil.
    + split; [right; reflexivity|]. split; [|discriminate].
      exists (lit "Specify filepath of an ifc file" ++ nl).
      rewrite <- app_assoc. reflexivity.
    + rewrite app_nil_r. repeat split; [exact Hnil | constructor].
  - rewrite process_args_from_cons.
    destruct (std_equal Ascii.eqb arg (lit "--help") || std_equal Ascii.eqb arg (lit "-h"))
      eqn:Hhelp.
    + split; [left; reflexivity|]. split; [exists []; reflexivity|]. intros _.
      apply orb_true_iff in Hhelp as [E | E]; apply std_equal_ascii in E; subst arg;
        [left | right]; left.
    + destruct (Ascii.eqb_spec (first_char arg) "-"%char) as [E | E]; cbn [negb].
      * split; [right; reflexivity|]. split; [|discriminate].
        exists (lit "Unknown command line argument '" ++ arg ++ lit "'" ++ nl).
        rewrite <- !app_assoc. reflexivity.
      * specialize (IH (files ++ [arg])).
        destruct (process_args_from argv0 rest (files ++ [arg])) as [out [code | files']].
        -- destruct IH as [Hcode [Htext Hzero]]. split; [exact Hcode|].
           split; [exact Htext|]. intros H0.
           destruct (Hzero H0) as [H | H]; [left | right]; right; exact H.
        -- destruct IH as [Hout [Hfiles [Hne Hall]]]. split; [exact Hout|].
           split; [rewrite Hfiles, <- app_assoc; reflexivity|].
           split; [exact Hne|]. constructor; [exact E | exact Hall].
Qed.

(** What [process_args] can do: either it returns all the arguments as
    files, in order, having printed nothing, and then there is at least
    one argument and none starts with [-]; or it exits with code 0 or 1
    after printing the usage text last, code 0 only when [--help] or [-h]
    is among the arguments. *)
Theorem process_args_outcomes (argv0 : list ascii) (args : list (list ascii)) :
  let '(out, outcome) := process_args argv0 args in
  match outcome with
  | Files files =>
      out = [] /\ files = args /\ args <> [] /\ Forall file_argument args
  | Exit code =>
      (code = 0 \/ code = 1)
      /\ (exists text, out = text ++ print_help argv0)
      /\ (code = 0 -> lit "--help" ∈ args \/ lit "-h" ∈ args)
  end.
Proof.
  unfold process_args.
  pose proof (process_args_from_outcomes argv0 args []) as H.
  destruct (process_args_from argv0 args []) as [out [code | files]]; [exact H|].
  destruct H as [Hout [Hfiles [Hne Hall]]]. simpl in Hfiles. subst files.
  repeat split; assumption.
Qed.

(** [--help] or [-h] after file arguments only: the usage text is printed,
    the program exits with code 0, and no file is processed, whatever
    follows the flag. *)
Theorem main_help (fs : FS) (argv0 arg : list ascii) (before rest : list (list ascii)) :
  Forall file_argument before ->
  arg = lit "--help" \/ arg = lit "-h" ->
  main fs argv0 (before ++ arg :: rest)
  = {| status := Returned 0; stdout := print_help argv0; stderr := []; disk := fs |}.
Proof.
  intros Hbefore Harg. unfold main, process_args.
  assert (Hparse : forall files,
             process_args_from argv0 (before ++ arg :: rest) files
             = (print_help argv0, Exit 0)).
  { induction Hbefore as [| f before Hfile _ IH]; intros files; simpl app.
    - rewrite process_args_from_cons.
      destruct Harg as [-> | ->]; reflexivity.
    - rewrite (process_args_from_file _ _ _ _ Hfile). apply IH. }
  rewrite Hparse. reflexivity.
Qed.

Lemma main_with_files (fs : FS) (argv0 : list ascii) (files : list (list ascii)) :
  Forall file_argument files ->
  files <> [] ->
  main fs argv0 files
  = match process_files fs files with
    | (fs', Ok _) =>
        {| status := Returned EXIT_SUCCESS; stdout := []; stderr := []; disk := fs' |}
    | (fs', Throw e) =>
        {| status := Returned EXIT_FAILURE; stdout := [];
           stderr := translate_exception e; disk := fs' |}
    | (fs', Undefined) =>
        {| status := WentWrong; stdout := []; stderr := []; disk := fs' |}
    end.
Proof.
  intros Hall Hne. unfold main, process_args.
  rewrite (process_args_from_files argv0 _ [] Hall) by exact Hne.
  reflexivity.
Qed.

(** With file arguments only, all of them processed without failure, the
    program prints nothing and exits with code 0, the files having been
    processed in the order given. *)
Theorem main_success (fs fs' : FS) (argv0 : list ascii) (files : list (list ascii)) :
  Forall file_argument files ->
  files <> [] ->
  process_files fs files = (fs', Ok tt) ->
  main fs argv0 files
  = {| status := Returned 0; stdout := []; stderr := []; disk := fs' |}.
Proof.
  intros Hall Hne Hrun. rewrite (main_with_files _ _ _ Hall Hne), Hrun. reflexivity.
Qed.

(** The first file on which [process_ifc] does not return ends the run:
    the files after it are not processed, and the program behaves as if
    they had not been given. *)
Theorem main_stops_at_first_failure
        (fs fs1 fs2 : FS) (argv0 file : list ascii)
        (before after : list (list ascii)) (r : result unit) :
  Forall file_argument (before ++ file :: after) ->
  process_files fs before = (fs1, Ok tt) ->
  process_ifc fs1 file = (fs2, r) ->
  (forall u, r <> Ok u) ->
  process_files fs (before ++ file :: after) = (fs2, r)
  /\ main fs argv0 (before ++ file :: after) = main fs argv0 (before ++ [file])
  /\ disk (main fs argv0 (before ++ file :: after)) = fs2.
Proof.
  intros Hall Hbefore Hfile Hr.
  assert (Hrun : forall rest, process_files fs (before ++ file :: rest) = (fs2, r)).
  { intros rest. rewrite process_files_app, Hbefore. simpl. rewrite Hfile.
    destruct r as [u | e |]; [destruct (Hr u eq_refl) | reflexivity ..]. }
  assert (Hall' : Forall file_argument (before ++ [file])).
  { apply Forall_app in Hall as [Hb Hf]. apply Forall_app. split; [exact Hb|].
    inversion Hf; subst. repeat constructor. assumption. }
  split; [apply Hrun|].
  rewrite (main_with_files _ _ _ Hall) by (destruct before; discriminate).
  rewrite (main_with_files _ _ _ Hall') by (destruct before; discriminate).
  rewrite !Hrun. split; [reflexivity|].
  destruct r as [u | e |]; [destruct (Hr u eq_refl) | reflexivity ..].
Qed.

Lemma memory_map_file_outcomes (fs : FS) (path : list ascii) :
  (exists bytes, memory_map_file fs path = Ok bytes)
  \/ exists what,
       memory_map_file fs path = Throw (RuntimeError what)
       /\ what ∈ [lit "Failed to open file"; lit "Failed to determine file size";
                  lit "Failed to create file mapping"; lit "Failed to map view of file"].
Proof.
  unfold memory_map_file.
  destruct (CreateFileA fs path) as [h|].
  2:{ right. eexists. split; [reflexivity|]. repeat constructor. }
  destruct (GetFileSize fs h =? INVALID_FILE_SIZE).
  { right. eexists. split; [reflexivity|]. repeat constructor. }
  destruct (CreateFileMappingA fs h) as [m|].
  2:{ right. eexists. split; [reflexivity|]. repeat constructor. }
  destruct (MapViewOfFile fs m) as [view|].
  2:{ right. eexists. split; [reflexivity|]. repeat constructor. }
  left. eexists. reflexivity.
Qed.

(** When a file cannot be mapped, [memory_map_file] throws a
    [std::runtime_error] whose text names the step that failed, but that
    text is never printed: the program prints [unknown exception caught]
    and exits with code 1, the file system as the files before left it. *)
Theorem unmappable_file_is_reported_generically
        (fs fs1 : FS) (argv0 file : list ascii) (before after : list (list ascii)) :
  Forall file_argument (before ++ file :: after) ->
  process_files fs before = (fs1, Ok tt) ->
  (forall bytes, memory_map_file fs1 file <> Ok bytes) ->
  (exists what,
     memory_map_file fs1 file = Throw (RuntimeError what)
     /\ what ∈ [lit "Failed to open file"; lit "Failed to determine file size";
                lit "Failed to create file mapping"; lit "Failed to map view of file"])
  /\ main fs argv0 (before ++ file :: after)
     = {| status := Returned 1; stdout := [];
          stderr := lit "unknown exception caught" ++ nl; disk := fs1 |}.
Proof.
  intros Hall Hbefore Hmap.
  destruct (memory_map_file_outcomes fs1 file) as [[bytes Hok] | [what [Hthrow Hin]]];
    [destruct (Hmap _ Hok)|].
  split; [exists what; split; assumption|].
  rewrite (main_with_files _ _ _ Hall) by (destruct before; discriminate).
  rewrite process_files_app, Hbefore. simpl. unfold process_ifc.
  rewrite Hthrow. reflexivity.
Qed.

End Driver.

(** ** load_file *)

Section LoaderFacts.

Variable FS : Type.
Variable file_size : FS -> list ascii -> result Z.
Variable ifstream : FS -> list ascii -> option (list byte).

Local Abbreviation load_file := (load_file FS file_size ifstream).

(** [load_file] returns as many bytes as [file_size] reports, whatever the
    stream delivers: the characters read come first and zero bytes fill
    the rest, so that a file that cannot be opened gives zero bytes only
    and no error. *)
Theorem load_file_length (fs : FS) (path : list ascii) (size : Z) :
  file_size fs path = Ok size ->
  exists v,
    load_file fs path = Ok v
    /\ length v = Z.to_nat size
    /\ (ifstream fs path = None -> v = replicate (Z.to_nat size) x00)
    /\ (forall chars, ifstream fs path = Some chars ->
         v = take (Z.to_nat size) chars
             ++ replicate (Z.to_nat size - length chars) x00).
Proof.
  intros Hsize. unfold load_file. rewrite Hsize. cbn [bind].
  rewrite length_replicate. eexists. split; [reflexivity|].
  unfold ifstream_read. destruct (ifstream fs path) as [chars|].
  - split; [|split; [discriminate|]].
    + rewrite length_app, length_drop, length_take, length_replicate. lia.
    + intros ? [= <-]. f_equal. rewrite drop_replicate, length_take. f_equal. lia.
  - split; [apply length_replicate|]. split; [reflexivity | discriminate].
Qed.

End LoaderFacts.

(** ** The theorems at work on the sample files *)

Lemma C3_reset_idempotent_witness :
  (36 <= length Sample.damaged_ifc)%nat
  /\ exists file1 file2,
       Sample.reset_content_hash Sample.damaged_ifc = Ok file1
       /\ Sample.reset_content_hash file1 = Ok file2
       /\ body file1 = body Sample.damaged_ifc
       /\ digest file1 = object_bytes (Sample.hash_bytes (body Sample.damaged_ifc))
       /\ digest file2 = digest file1
       /\ file2 = file1
       /\ Sample.validate_content_integrity file1 = Ok tt
       /\ Sample.validate_content_integrity file2 = Ok tt.
Proof.
  split; [vm_compute; lia|].
  apply (C3_reset_idempotent Sample.hash_bytes Sample.bytes_to_hash Sample.damaged_ifc).
  vm_compute. lia.
Defined.

Lemma C4_digest_covers_body_witness :
  (36 <= length Sample.source_ifc)%nat
  /\ generate_content_hash Sample.hash_bytes Sample.source_ifc
     = Ok (Sample.hash_bytes Sample.source_body)
  /\ Sample.validate_content_integrity Sample.source_ifc = Ok tt.
Proof.
  assert (H : (36 <= length Sample.source_ifc)%nat) by (vm_compute; lia).
  destruct (C4_digest_covers_body Sample.hash_bytes Sample.bytes_to_hash
              Sample.source_ifc H) as [_ [_ [Hgen _]]].
  split; [exact H|]. split.
  - rewrite Hgen. vm_compute. reflexivity.
  - vm_compute. reflexivity.
Defined.

Lemma C9_reset_changes_only_digest_witness :
  (36 <= length Sample.damaged_ifc)%nat
  /\ exists file',
       Sample.reset_content_hash Sample.damaged_ifc = Ok file'
       /\ length file' = length Sample.damaged_ifc
       /\ signature file' = signature Sample.damaged_ifc
       /\ body file' = body Sample.damaged_ifc
       /\ forall i, (i < 4 \/ 36 <= i)%nat -> file' !! i = Sample.damaged_ifc !! i.
Proof.
  split; [vm_compute; lia|].
  apply (C9_reset_changes_only_digest Sample.hash_bytes Sample.damaged_ifc).
  vm_compute. lia.
Defined.

Lemma C1_digest_reestablished_witness :
  let st' := {| contents := Sample.sealed Sample.rewritten_body;
                log := [SetString 2 (lit "ICACHECUR\foo\src\public\bar\baz.h");
                        ResetContentHash] |} in
  Sample.process_mapped {| contents := Sample.source_ifc; log := [] |} = (st', Ok tt)
  /\ digest (contents st') = object_bytes (Sample.hash_bytes (body (contents st')))
  /\ Sample.validate_content_integrity (contents st') = Ok tt
  /\ resets (log st') = 1%nat
  /\ last (log st') = Some ResetContentHash.
Proof.
  intros st'.
  assert (Hrun : Sample.process_mapped {| contents := Sample.source_ifc; log := [] |}
                 = (st', Ok tt)) by (vm_compute; reflexivity).
  destruct (C1_digest_reestablished
              Sample.hash_bytes Sample.bytes_to_hash Sample.validate_header
              Sample.partition_table Sample.get Sample.set Sample.read_array
              Sample.source_file_name
              Sample.source_ifc true 0%nat
              {| name := 1; offset := 40; cardinality := 1 |} st')
    as [Hd [Hv _]].
  - vm_compute. reflexivity.
  - vm_compute. reflexivity.
  - vm_compute. reflexivity.
  - simpl. lia.
  - exact Hrun.
  - split; [exact Hrun|]. split; [exact Hd|]. split; [exact Hv|].
    split; vm_compute; reflexivity.
Defined.

Lemma C5_missing_partition_is_no_error_witness :
  Sample.validate Sample.other_ifc = Ok true
  /\ Sample.find_if Sample.other_ifc (Sample.partition_table Sample.other_ifc) = Ok None
  /\ Sample.process_mapped {| contents := Sample.other_ifc; log := [] |}
     = ({| contents := Sample.other_ifc; log := [] |}, Ok tt)
  /\ Sample.process_ifc Sample.disk0 (lit "b.ifc")
     = (Sample.written_through Sample.disk0 (lit "b.ifc") Sample.other_ifc, Ok tt).
Proof.
  assert (Hv : Sample.validate Sample.other_ifc = Ok true) by (vm_compute; reflexivity).
  destruct (C5_missing_partition_is_no_error
              Sample.hash_bytes Sample.bytes_to_hash Sample.validate_header
              Sample.partition_table Sample.get Sample.set Sample.read_array
              Sample.source_file_name Sample.FS Sample.HANDLE Sample.CreateFileA
              Sample.GetFileSize Sample.CreateFileMappingA Sample.MapViewOfFile
              Sample.written_through Sample.other_ifc true Hv)
    as [Hnone [Hrun Hfile]].
  - change (Sample.partition_table Sample.other_ifc)
      with [ {| name := 3; offset := 40; cardinality := 1 |} ].
    constructor; [|constructor].
    exists (lit "name.other"). split; [vm_compute; reflexivity | discriminate].
  - split; [exact Hv|]. split; [exact Hnone|]. split; [exact Hrun|].
    apply Hfile. vm_compute. reflexivity.
Defined.

Lemma C7_failure_exit_code_and_message_witness :
  let r := Sample.main Sample.disk0 (lit "ifc4enlistment") [lit "a.ifc"; lit "bad.ifc"] in
  (exists fs2 h1 h2,
     Sample.process_ifc (fst (Sample.process_files Sample.disk0 [lit "a.ifc"]))
                        (lit "bad.ifc")
     = (fs2, Throw (IntegrityCheckFailed h1 h2)))
  /\ status r = Returned 1
  /\ stderr r = lit "unknown exception caught" ++ nl.
Proof.
  intros r.
  set (fs1 := Sample.written_through Sample.disk0 (lit "a.ifc")
                (Sample.sealed Sample.rewritten_body)).
  set (h1 := Sample.bytes_to_hash (repeat x00 32)).
  set (h2 := Sample.hash_bytes Sample.source_body).
  set (fs2 := Sample.written_through fs1 (lit "bad.ifc") Sample.damaged_ifc).
  destruct (C7_failure_exit_code_and_message
              Sample.hash_bytes Sample.bytes_to_hash Sample.validate_header
              Sample.partition_table Sample.get Sample.set Sample.read_array
              Sample.source_file_name Sample.stem Sample.FS Sample.HANDLE
              Sample.CreateFileA Sample.GetFileSize Sample.CreateFileMappingA
              Sample.MapViewOfFile Sample.written_through
              Sample.disk0 fs1 fs2 (lit "ifc4enlistment") (lit "bad.ifc")
              [lit "a.ifc"] [] (IntegrityCheckFailed h1 h2))
    as [Hstatus [_ [_ [_ [Hgeneric _]]]]].
  - repeat constructor; discriminate.
  - vm_compute. reflexivity.
  - vm_compute. reflexivity.
  - split; [|split].
    + exists fs2, h1, h2. vm_compute. reflexivity.
    + exact Hstatus.
    + apply Hgeneric; [discriminate | intros m; discriminate].
Defined.

Lemma C10_color_flag_is_rejected_witness :
  let r := Sample.main Sample.disk0 (lit "ifc4enlistment") [lit "a.ifc"; lit "--color"] in
  status r = Returned 1
  /\ stdout r = lit "Unknown command line argument '--color'" ++ nl
                ++ lit "Usage:" ++ nl ++ nl
                ++ lit "ifc4enlistment ifc-file1 [ifc-file2 ...] [--color/-c]" ++ nl
                ++ lit "ifc4enlistment --help/-h" ++ nl
  /\ disk r = Sample.disk0.
Proof.
  intros r.
  destruct (C10_color_flag_is_rejected
              Sample.hash_bytes Sample.bytes_to_hash Sample.validate_header
              Sample.partition_table Sample.get Sample.set Sample.read_array
              Sample.source_file_name Sample.stem Sample.FS Sample.HANDLE
              Sample.CreateFileA Sample.GetFileSize Sample.CreateFileMappingA
              Sample.MapViewOfFile Sample.written_through
              Sample.disk0 (lit "ifc4enlistment") (lit "--color") [lit "a.ifc"] [])
    as [Hstatus [Hout [_ [Hdisk _]]]].
  - repeat constructor; discriminate.
  - left. reflexivity.
  - split; [exact Hstatus|]. split; [|exact Hdisk].
    etransitivity; [exact Hout|]. vm_compute. reflexivity.
Defined.

(** C7, as worded, fails: a damaged file makes [process_ifc] throw
    [IntegrityCheckFailed], the program exits with code 1, and what it
    prints is [unknown exception caught], the very text printed when the
    file cannot be opened, a failure of another kind; so the text does not
    identify [IntegrityCheckFailed]. *)
Lemma C7_integrity_failure_reported_generically :
  let bad := Sample.main Sample.disk0 (lit "ifc4enlistment") [lit "bad.ifc"] in
  let gone := Sample.main Sample.disk0 (lit "ifc4enlistment") [lit "gone.ifc"] in
  let e := IntegrityCheckFailed (Sample.bytes_to_hash (repeat x00 32))
                                (Sample.hash_bytes Sample.source_body) in
  snd (Sample.process_ifc Sample.disk0 (lit "bad.ifc")) = Throw e
  /\ snd (Sample.process_ifc Sample.disk0 (lit "gone.ifc"))
     = Throw (RuntimeError (lit "Failed to open file"))
  /\ status bad = Returned 1
  /\ stderr bad = lit "unknown exception caught" ++ nl
  /\ stderr gone = stderr bad
  /\ kind e <> kind (RuntimeError (lit "Failed to open file"))
  /\ ~ identifies_kind e.
Proof.
  cbv zeta. repeat split; try (vm_compute; reflexivity).
  - discriminate.
  - intros H. specialize (H MalformedContainer eq_refl). discriminate.
Qed.

(** ** The further properties at work on sample inputs *)

Lemma rewritten_path_passthrough_witness :
  rewritten_path (lit "SRC_PARENTsrc\foo\private\x.h") = Ok None
  /\ rewritten_path (lit "C:\foo\public\x.h") = Ok None.
Proof.
  split.
  - apply rewritten_path_passthrough. right. intros a b H.
    apply (find_containing _ a b publicPath) in H.
    + apply H. vm_compute. reflexivity.
    + unfold fits. vm_compute. reflexivity.
  - apply rewritten_path_passthrough. left. vm_compute. reflexivity.
Defined.

Lemma rewritten_path_idempotent_witness :
  rewritten_path (lit "SRC_PARENTsrc\foo\public\bar\baz.h")
  = Ok (Some (lit "ICACHECUR\foo\src\public\bar\baz.h"))
  /\ rewritten_path (lit "ICACHECUR\foo\src\public\bar\baz.h") = Ok None.
Proof.
  assert (H : rewritten_path (lit "SRC_PARENTsrc\foo\public\bar\baz.h")
              = Ok (Some (lit "ICACHECUR\foo\src\public\bar\baz.h")))
    by (vm_compute; reflexivity).
  split; [exact H|].
  exact (rewritten_path_idempotent _ _ H).
Defined.

Lemma project_name_first_separator_witness :
  let s := lit "SRC_PARENTsrc\a\b\c\public\x.h" in
  fits s
  /\ substr s (size srcrootPrefix) (size_sub 19 (size srcrootPrefix)) = Ok (lit "a\b\c")
  /\ project_name s 19 = Ok (lit "a_b\c").
Proof.
  intros s.
  assert (Hfits : fits s) by (unfold fits; vm_compute; reflexivity).
  assert (Hsub : substr s (size srcrootPrefix) (size_sub 19 (size srcrootPrefix))
                 = Ok (lit "a\b\c")) by (vm_compute; reflexivity).
  split; [exact Hfits|]. split; [exact Hsub|].
  destruct (project_name_first_separator s (lit "a\b\c") 19 Hfits Hsub) as [_ H].
  apply (H (lit "a") (lit "b\c")); [reflexivity|].
  unfold lit. cbn [list_ascii_of_string].
  rewrite !not_elem_of_cons. repeat split; try discriminate. apply not_elem_of_nil.
Defined.

Lemma rewritten_path_keeps_tail_witness :
  let s := lit "SRC_PARENTsrc\a\b\public\x.h" in
  fits s
  /\ starts_with s srcrootPrefix = true
  /\ find_from s publicPath 0 = Some 17%nat
  /\ exists project,
       project_name s 17 = Ok project
       /\ length project = 3%nat
       /\ rewritten_path s
          = Ok (Some (icachePrefix ++ project ++ icacheSuffix ++ lit "\public\x.h"))
       /\ starts_with (lit "\public\x.h") publicPath = true.
Proof.
  intros s.
  assert (Hfits : fits s) by (unfold fits; vm_compute; reflexivity).
  assert (Hpre : starts_with s srcrootPrefix = true) by (vm_compute; reflexivity).
  assert (Hfind : find_from s publicPath 0 = Some 17%nat) by (vm_compute; reflexivity).
  split; [exact Hfits|]. split; [exact Hpre|]. split; [exact Hfind|].
  apply (rewritten_path_keeps_tail s 17 Hfits Hpre Hfind). lia.
Defined.

Lemma rewritten_path_marker_on_prefix_result_witness :
  rewritten_path (lit "SRC_PARENTsrc\public\inc\x.h")
  = Ok (Some (lit "ICACHECUR\public_inc\x.h\src")).
Proof.
  apply (rewritten_path_marker_on_prefix_result (lit "inc\x.h")).
  unfold fits. vm_compute. reflexivity.
Defined.

Lemma integrity_check_rejects_other_digest_witness :
  Sample.validate_content_integrity Sample.source_ifc = Ok tt
  /\ Sample.validate_content_integrity Sample.damaged_ifc
     = Throw (IntegrityCheckFailed
                (Sample.bytes_to_hash (digest Sample.damaged_ifc))
                (Sample.hash_bytes (body Sample.source_ifc))).
Proof.
  assert (Hv : Sample.validate_content_integrity Sample.source_ifc = Ok tt)
    by (vm_compute; reflexivity).
  split; [exact Hv|].
  apply (integrity_check_rejects_other_digest Sample.hash_bytes Sample.bytes_to_hash
           Sample.source_ifc Sample.damaged_ifc Hv).
  - vm_compute. reflexivity.
  - vm_compute. reflexivity.
  - vm_compute. discriminate.
Defined.

Lemma integrity_check_ignores_signature_witness :
  let other := [x00; x00; x00; x00] ++ drop 4 Sample.source_ifc in
  Sample.validate_content_integrity other
  = Sample.validate_content_integrity Sample.source_ifc.
Proof.
  intros other.
  apply (integrity_check_ignores_signature Sample.hash_bytes Sample.bytes_to_hash
           other Sample.source_ifc).
  vm_compute. reflexivity.
Defined.

Lemma process_mapped_changes_only_by_set_or_reset_witness :
  exists events,
    log (fst (Sample.process_mapped {| contents := Sample.damaged_ifc; log := [] |}))
    = [] ++ events
    /\ (events = [] ->
        contents (fst (Sample.process_mapped
                         {| contents := Sample.damaged_ifc; log := [] |}))
        = Sample.damaged_ifc).
Proof.
  apply (process_mapped_changes_only_by_set_or_reset
           Sample.hash_bytes Sample.bytes_to_hash Sample.validate_header
           Sample.partition_table Sample.get Sample.set Sample.read_array
           Sample.source_file_name
           {| contents := Sample.damaged_ifc; log := [] |} _
           (snd (Sample.process_mapped {| contents := Sample.damaged_ifc; log := [] |}))).
  vm_compute. reflexivity.
Defined.

Lemma process_mapped_rejects_damaged_file_witness :
  Sample.process_mapped {| contents := Sample.damaged_ifc; log := [] |}
  = ({| contents := Sample.damaged_ifc; log := [] |},
     Throw (IntegrityCheckFailed (Sample.bytes_to_hash (digest Sample.damaged_ifc))
                                 (Sample.hash_bytes (body Sample.damaged_ifc)))).
Proof.
  apply (process_mapped_rejects_damaged_file
           Sample.hash_bytes Sample.bytes_to_hash Sample.validate_header
           Sample.partition_table Sample.get Sample.set Sample.read_array
           Sample.source_file_name Sample.damaged_ifc).
  - vm_compute. lia.
  - vm_compute. discriminate.
Defined.

Lemma rewrite_record_sets_same_length_witness :
  let st := {| contents := Sample.source_ifc; log := [] |} in
  let st' := fst (rewrite_record Sample.get Sample.set Sample.source_file_name 40 0 st) in
  st' <> st
  /\ exists s s',
       Sample.get Sample.source_ifc 2 = Ok s
       /\ length s' = length s
       /\ log st' = [SetString 2 s'].
Proof.
  intros st st'.
  assert (Hne : st' <> st) by (vm_compute; discriminate).
  split; [exact Hne|].
  destruct (rewrite_record_sets_same_length
              Sample.get Sample.set Sample.source_file_name 40 0 st st'
              (snd (rewrite_record Sample.get Sample.set Sample.source_file_name 40 0 st)))
    as [H | [s [s' [_ [Hget [_ [Hlen [_ [_ [Hlog _]]]]]]]]]].
  - vm_compute. reflexivity.
  - contradiction.
  - exists s, s'. split; [exact Hget|]. split; [exact Hlen | exact Hlog].
Defined.

Lemma unresolved_partition_name_aborts_witness :
  let file := Sample.sealed ([x09; x00; x00; x00] ++ Sample.bytes_of "C:\x.h") in
  Sample.process_mapped {| contents := file; log := [] |}
  = ({| contents := file; log := [] |}, Throw UnresolvedReference).
Proof.
  intros file.
  apply (unresolved_partition_name_aborts
           Sample.hash_bytes Sample.bytes_to_hash Sample.validate_header
           Sample.partition_table Sample.get Sample.set Sample.read_array
           Sample.source_file_name file true []
           [] {| name := 9; offset := 40; cardinality := 1 |}).
  - vm_compute. reflexivity.
  - vm_compute. reflexivity.
  - constructor.
  - vm_compute. reflexivity.
Defined.

Lemma process_mapped_without_match_keeps_bytes_witness :
  let file := Sample.sealed ([x01; x00; x00; x00] ++ Sample.bytes_of "C:\x.h") in
  Sample.process_mapped {| contents := file; log := [] |}
  = ({| contents := file; log := [ResetContentHash] |}, Ok tt).
Proof.
  intros file.
  apply (process_mapped_without_match_keeps_bytes
           Sample.hash_bytes Sample.bytes_to_hash Sample.validate_header
           Sample.partition_table Sample.get Sample.set Sample.read_array
           Sample.source_file_name file true
           {| name := 1; offset := 40; cardinality := 1 |} 1).
  - vm_compute. reflexivity.
  - vm_compute. reflexivity.
  - vm_compute. reflexivity.
  - intros i Hi. right. exists (lit "C:\x.h"). split; vm_compute; reflexivity.
Defined.

Lemma main_help_witness :
  Sample.main Sample.disk0 (lit "ifc4enlistment") [lit "a.ifc"; lit "-h"; lit "--color"]
  = {| status := Returned 0;
       stdout := print_help Sample.stem (lit "ifc4enlistment");
       stderr := []; disk := Sample.disk0 |}.
Proof.
  apply (main_help
           Sample.hash_bytes Sample.bytes_to_hash Sample.validate_header
           Sample.partition_table Sample.get Sample.set Sample.read_array
           Sample.source_file_name Sample.stem Sample.FS Sample.HANDLE
           Sample.CreateFileA Sample.GetFileSize Sample.CreateFileMappingA
           Sample.MapViewOfFile Sample.written_through
           Sample.disk0 (lit "ifc4enlistment") (lit "-h") [lit "a.ifc"] [lit "--color"]).
  - repeat constructor; discriminate.
  - right. reflexivity.
Defined.

Lemma main_success_witness :
  let r := Sample.main Sample.disk0 (lit "ifc4enlistment") [lit "a.ifc"; lit "b.ifc"] in
  status r = Returned 0 /\ stdout r = [] /\ stderr r = []
  /\ Sample.lookup_file (disk r) (lit "a.ifc")
     = Some (Sample.sealed Sample.rewritten_body).
Proof.
  intros r.
  assert (E : r = {| status := Returned 0; stdout := []; stderr := [];
                     disk := fst (Sample.process_files Sample.disk0
                                    [lit "a.ifc"; lit "b.ifc"]) |}).
  { apply (main_success
             Sample.hash_bytes Sample.bytes_to_hash Sample.validate_header
             Sample.partition_table Sample.get Sample.set Sample.read_array
             Sample.source_file_name Sample.stem Sample.FS Sample.HANDLE
             Sample.CreateFileA Sample.GetFileSize Sample.CreateFileMappingA
             Sample.MapViewOfFile Sample.written_through).
    - repeat constructor; discriminate.
    - discriminate.
    - vm_compute. reflexivity. }
  rewrite E. cbn [status stdout stderr disk].
  split; [reflexivity|]. split; [reflexivity|]. split; [reflexivity|].
  vm_compute. reflexivity.
Defined.

Lemma main_stops_at_first_failure_witness :
  Sample.main Sample.disk0 (lit "ifc4enlistment") [lit "bad.ifc"; lit "a.ifc"]
  = Sample.main Sample.disk0 (lit "ifc4enlistment") [lit "bad.ifc"]
  /\ Sample.lookup_file
       (disk (Sample.main Sample.disk0 (lit "ifc4enlistment") [lit "bad.ifc"; lit "a.ifc"]))
       (lit "a.ifc")
     = Some Sample.source_ifc.
Proof.
  destruct (main_stops_at_first_failure
              Sample.hash_bytes Sample.bytes_to_hash Sample.validate_header
              Sample.partition_table Sample.get Sample.set Sample.read_array
              Sample.source_file_name Sample.stem Sample.FS Sample.HANDLE
              Sample.CreateFileA Sample.GetFileSize Sample.CreateFileMappingA
              Sample.MapViewOfFile Sample.written_through
              Sample.disk0 Sample.disk0
              (fst (Sample.process_ifc Sample.disk0 (lit "bad.ifc")))
              (lit "ifc4enlistment") (lit "bad.ifc") [] [lit "a.ifc"]
              (snd (Sample.process_ifc Sample.disk0 (lit "bad.ifc"))))
    as [_ [Hsame Hdisk]].
  - repeat constructor; discriminate.
  - reflexivity.
  - vm_compute. reflexivity.
  - intros u. vm_compute. discriminate.
  - split; [exact Hsame|]. vm_compute. reflexivity.
Defined.

Lemma unmappable_file_is_reported_generically_witness :
  Sample.main Sample.disk0 (lit "ifc4enlistment") [lit "gone.ifc"; lit "a.ifc"]
  = {| status := Returned 1; stdout := [];
       stderr := lit "unknown exception caught" ++ nl; disk := Sample.disk0 |}.
Proof.
  apply (unmappable_file_is_reported_generically
           Sample.hash_bytes Sample.bytes_to_hash Sample.validate_header
           Sample.partition_table Sample.get Sample.set Sample.read_array
           Sample.source_file_name Sample.stem Sample.FS Sample.HANDLE
           Sample.CreateFileA Sample.GetFileSize Sample.CreateFileMappingA
           Sample.MapViewOfFile Sample.written_through
           Sample.disk0 Sample.disk0 (lit "ifc4enlistment") (lit "gone.ifc")
           [] [lit "a.ifc"]).
  - repeat constructor; discriminate.
  - reflexivity.
  - intros bytes. vm_compute. discriminate.
Defined.

Lemma load_file_length_witness :
  exists v,
    SampleLoader.load_file Sample.disk0 (lit "a.ifc") = Ok v
    /\ length v = length Sample.source_ifc
    /\ v = Sample.source_ifc.
Proof.
  destruct (load_file_length Sample.FS SampleLoader.file_size SampleLoader.ifstream
              Sample.disk0 (lit "a.ifc") (Z.of_nat (length Sample.source_ifc)))
    as [v [Hv [Hlen [_ Hchars]]]].
  - vm_compute. reflexivity.
  - exists v. split; [exact Hv|]. split; [rewrite Hlen; apply Nat2Z.id|].
    rewrite (Hchars Sample.source_ifc) by (vm_compute; reflexivity).
    vm_compute. reflexivity.
Defined.
